(** * EdgeworthExplorer: a shallow embedding of utils/economic_calculations.py

    Numbers.  The Python code computes with IEEE doubles; this development
    computes with exact rationals [Q].  The special values that the code
    produces explicitly ([float('inf')], [np.inf]) and the ones that arise
    from them ([inf - inf] is NaN, [-inf]) are kept in the type [flt] below,
    together with Python's comparison [<] on them (every comparison with NaN
    is false).  Where the code stores a newly computed number in a loop
    variable, the model stores its canonical representative [Qred q]: a
    float has a single representation, and [Qred] keeps the numerators and
    denominators of the loop variables small without changing their value.
    A utility function is a total map [Q -> Q -> Q], i.e. one
    whose evaluations are finite.

    Loops.  Each [while] loop of the source is run by [while_loop], which
    takes a fuel bound and answers [None] when the bound is reached before
    the loop guard becomes false; the top-level functions therefore answer
    [None] only when the fuel given was too small, and the termination
    results below show that some fuel is always enough. *)

From Stdlib Require Import QArith Qround Qabs Lqa Lia Bool ZArith String List Sorting.Sorted
  Sorting.Permutation.
Import ListNotations.

Local Open Scope Q_scope.

(** Python's [a < b] on finite floats. *)
Definition Qltb (a b : Q) : bool := negb (Qle_bool b a).

(** ** Floating-point values with infinities and NaN *)

Inductive flt : Type :=
| Fin (q : Q)
| PInf
| NInf
| NaN.

(** Python's [a < b] on floats. *)
Definition flt_ltb (a b : flt) : bool :=
  match a, b with
  | Fin p, Fin q => Qltb p q
  | Fin _, PInf => true
  | NInf, Fin _ => true
  | NInf, PInf => true
  | _, _ => false
  end.

(** [a - b] *)
Definition flt_sub (a b : flt) : flt :=
  match a, b with
  | Fin p, Fin q => Fin (p - q)
  | Fin _, NInf | PInf, Fin _ | PInf, NInf => PInf
  | Fin _, PInf | NInf, Fin _ | NInf, PInf => NInf
  | _, _ => NaN
  end.

(** [a + b] *)
Definition flt_add (a b : flt) : flt :=
  match a, b with
  | Fin p, Fin q => Fin (p + q)
  | Fin _, PInf | PInf, Fin _ | PInf, PInf => PInf
  | Fin _, NInf | NInf, Fin _ | NInf, NInf => NInf
  | _, _ => NaN
  end.

(** [abs(a)] *)
Definition flt_abs (a : flt) : flt :=
  match a with
  | Fin p => Fin (Qabs p)
  | PInf | NInf => PInf
  | NaN => NaN
  end.

(** ** numpy helpers *)

(** [np.linspace(a, b, n)] (endpoint included), in exact arithmetic. *)
Definition linspace (a b : Q) (n : nat) : list Q :=
  match n with
  | O => []
  | 1%nat => [a]
  | _ => map (fun i => a + inject_Z (Z.of_nat i) * ((b - a) / inject_Z (Z.of_nat (n - 1))))
             (seq 0 n)
  end.

(** A [while guard: body] loop, run for at most [fuel] iterations; [None]
    when the fuel runs out while the guard still holds. *)
Fixpoint while_loop {S : Type} (guard : S -> bool) (body : S -> S)
    (fuel : nat) (st : S) : option S :=
  if guard st then
    match fuel with
    | O => None
    | S n => while_loop guard body n (body st)
    end
  else Some st.

(** ** calculate_mrs *)

Definition epsilon_default : Q := 1 # 1000000.

(** [calculate_mrs(util_func, x, y, epsilon)]:
    [dx = (f(x+e, y) - f(x, y)) / e], [dy = (f(x, y+e) - f(x, y)) / e],
    [return -dx/dy if dy != 0 else np.inf]. *)
Definition calculate_mrs (util_func : Q -> Q -> Q) (x y epsilon : Q) : flt :=
  let dx := (util_func (x + epsilon) y - util_func x y) / epsilon in
  let dy := (util_func x (y + epsilon) - util_func x y) / epsilon in
  if negb (Qeq_bool dy 0) then Fin ((- dx) / dy) else PInf.

Definition mrs (util_func : Q -> Q -> Q) (x y : Q) : flt :=
  calculate_mrs util_func x y epsilon_default.

(** ** calculate_indifference_curves *)

(** The bisection [while high - low > 1e-6] on the state [(low, high)]. *)
Definition bisect_guard (st : Q * Q) : bool :=
  let '(low, high) := st in Qltb (1 # 1000000) (high - low).

Definition bisect_body (util_func : Q -> Q -> Q) (xi u : Q) (st : Q * Q) : Q * Q :=
  let '(low, high) := st in
  let mid := Qred ((low + high) / 2) in
  if Qltb (util_func xi mid) u then (mid, high) else (low, mid).

(** The bracket halves at every iteration, so the loop runs at most
    [log2 ((max_y - 0.1) / 1e-6)] times (rounded up): this is the fuel. *)
Definition bisect_fuel (max_y : Q) : nat :=
  Z.to_nat (Z.log2_up (Qceiling ((max_y - (1 # 10)) * 1000000))).

Definition bisect (util_func : Q -> Q -> Q) (max_y xi u : Q) : Q :=
  match while_loop bisect_guard (bisect_body util_func xi u)
          (bisect_fuel max_y) (1 # 10, max_y) with
  | Some (low, _) => low
  | None => 1 # 10
  end.

(** [u_levels = np.linspace(f(max_x/4, max_y/4), f(max_x*3/4, max_y*3/4), num_curves)] *)
Definition u_levels (util_func : Q -> Q -> Q) (max_x max_y : Q) (num_curves : nat) : list Q :=
  linspace (util_func (max_x / 4) (max_y / 4))
           (util_func (max_x * 3 / 4) (max_y * 3 / 4)) num_curves.

Definition calculate_indifference_curves (util_func : Q -> Q -> Q)
    (max_x max_y : Q) (num_curves : nat) : list (list Q * list Q) :=
  let x := linspace (1 # 10) max_x 100 in
  map (fun u => (x, map (fun xi => bisect util_func max_y xi u) x))
      (u_levels util_func max_x max_y num_curves).

(** ** Gathering per-iteration results

    The solvers loop over x-slices or price ratios and append what each
    iteration accepts; [gather] concatenates those contributions, failing
    only when an iteration ran out of fuel. *)
Fixpoint gather {A : Type} (l : list (option (list A))) : option (list A) :=
  match l with
  | [] => Some []
  | None :: _ => None
  | Some r :: l' =>
      match gather l' with
      | Some rest => Some (r ++ rest)
      | None => None
      end
  end.

(** ** calculate_offer_curves *)

(** [abs(calculate_mrs(f_a, x_base, y) - calculate_mrs(f_b, total_x - x_base, total_y - y))] *)
Definition mrs_gap (util_func_a util_func_b : Q -> Q -> Q) (total_x total_y x_base y : Q) : flt :=
  flt_abs (flt_sub (mrs util_func_a x_base y)
                   (mrs util_func_b (total_x - x_base) (total_y - y))).

(** The coarse scan [for y_test in y_values: ... if diff < best_diff: ...],
    returning [(best_diff, best_y)]. *)
Definition coarse_scan (gap : Q -> flt) (y_values : list Q) : flt * option Q :=
  fold_left (fun acc y_test =>
               let diff := gap y_test in
               if flt_ltb diff (fst acc) then (diff, Some y_test) else acc)
            y_values (PInf, None).

Record offer_state : Type := mk_offer_state {
  dy : Q;
  best_y : Q;
  best_diff : flt
}.

(** [while dy > 1e-6 * total_y:] *)
Definition offer_guard (total_y : Q) (st : offer_state) : bool :=
  Qltb ((1 # 1000000) * total_y) (dy st).

(** One iteration of the local refinement: both neighbours
    [best_y - dy], [best_y + dy] (computed before the [for]) are tried in
    turn against the running [best_diff]; no [break]. *)
Definition offer_body (gap : Q -> flt) (total_y : Q) (st : offer_state) : offer_state :=
  let '(by', bd', improved) :=
    fold_left (fun (acc : Q * flt * bool) y_new =>
                 let '(_, bd, _) := acc in
                 if Qltb ((1 # 100) * total_y) y_new && Qltb y_new ((99 # 100) * total_y) then
                   let diff := gap y_new in
                   if flt_ltb diff bd then (y_new, diff, true) else acc
                 else acc)
              [Qred (best_y st - dy st); Qred (best_y st + dy st)]
              (best_y st, best_diff st, false) in
  if improved then mk_offer_state (dy st) by' bd'
  else mk_offer_state (Qred (dy st * (1 # 2))) by' bd'.

(** One x-slice of the outer loop: [Some [(x_base, best_y)]] when the slice
    is accepted, [Some []] when it is dropped. *)
Definition offer_slice (fuel : nat) (util_func_a util_func_b : Q -> Q -> Q)
    (total_x total_y t : Q) : option (list (Q * Q)) :=
  let x_base := total_x * t in
  let gap := mrs_gap util_func_a util_func_b total_x total_y x_base in
  let y_values := linspace ((5 # 100) * total_y) ((95 # 100) * total_y) 50 in
  let '(bd0, by0) := coarse_scan gap y_values in
  match by0 with
  | Some y0 =>
      if flt_ltb bd0 (Fin 1) then
        match while_loop (offer_guard total_y) (offer_body gap total_y) fuel
                (mk_offer_state ((1 # 10) * total_y) y0 bd0) with
        | Some st =>
            if flt_ltb (best_diff st) (Fin (1 # 10)) then Some [(x_base, best_y st)]
            else Some []
        | None => None
        end
      else Some []
  | None => Some []
  end.

(** The accepted points [zip(x_points, y_points)] before smoothing. *)
Definition offer_accepted (fuel : nat) (util_func_a util_func_b : Q -> Q -> Q)
    (total_x total_y : Q) (num_points : nat) : option (list (Q * Q)) :=
  gather (map (offer_slice fuel util_func_a util_func_b total_x total_y)
              (linspace (5 # 100) (95 # 100) num_points)).

(** [np.convolve(a, v, mode='valid')] for [len(a) >= len(v)]:
    [out[i] = sum_j a[i + len(v) - 1 - j] * v[j]]. *)
Definition convolve_valid (a v : list Q) : list Q :=
  map (fun i => fold_right Qplus 0
                  (map (fun p => fst p * snd p)
                       (combine (rev (firstn (length v) (skipn i a))) v)))
      (seq 0 (length a - length v + 1)).

(** The post-processing: moving average when more than five points. *)
Definition smooth (x_points y_points : list Q) : list Q * list Q :=
  if Nat.ltb 5 (length x_points) then
    let window := 5%nat in
    let y_smooth := convolve_valid y_points
                      (repeat (1 / inject_Z (Z.of_nat window)) window) in
    let x_smooth := firstn (length y_smooth) (skipn (window - 1) x_points) in
    (x_smooth, y_smooth)
  else (x_points, y_points).

(** [calculate_offer_curves]; the endowments are parameters of the source
    function and are kept here. *)
Definition calculate_offer_curves (fuel : nat) (util_func_a util_func_b : Q -> Q -> Q)
    (total_x total_y endow_ax endow_ay endow_bx endow_by : Q) (num_points : nat)
    : option (list Q * list Q) :=
  match offer_accepted fuel util_func_a util_func_b total_x total_y num_points with
  | Some pts => Some (smooth (map fst pts) (map snd pts))
  | None => None
  end.

(** ** find_walrasian_equilibrium *)

(** [abs(mrs_a - price_ratio) + abs(mrs_b - price_ratio)] *)
Definition excess (util_func_a util_func_b : Q -> Q -> Q) (total_x total_y price_ratio x y : Q) : flt :=
  flt_add (flt_abs (flt_sub (mrs util_func_a x y) (Fin price_ratio)))
          (flt_abs (flt_sub (mrs util_func_b (total_x - x) (total_y - y)) (Fin price_ratio))).

(** The y-scan shared by [demand_excess] (20 samples) and the final
    search for [best_y] (50 samples): returns [(best_excess, best_y)]. *)
Definition y_scan (util_func_a util_func_b : Q -> Q -> Q) (total_x total_y price_ratio x : Q)
    (samples : nat) : flt * option Q :=
  fold_left (fun acc t =>
               let y_test := total_y * t in
               if Qltb (1 # 10) y_test && Qltb y_test (total_y - (1 # 10)) then
                 let e := excess util_func_a util_func_b total_x total_y price_ratio x y_test in
                 if flt_ltb e (fst acc) then (e, Some y_test) else acc
               else acc)
            (linspace (1 # 10) (9 # 10) samples) (PInf, None).

(** The closure [demand_excess(x)] of one price ratio. *)
Definition demand_excess (util_func_a util_func_b : Q -> Q -> Q) (total_x total_y price_ratio x : Q) : flt :=
  if Qle_bool x (1 # 10) || Qle_bool (total_x - (1 # 10)) x then PInf
  else
    let '(best_excess, best_y) := y_scan util_func_a util_func_b total_x total_y price_ratio x 20 in
    match best_y with
    | Some _ => best_excess
    | None => PInf
    end.

(** [while step > 1e-4:] on the state [(x_current, step)] *)
Definition walras_guard (st : Q * Q) : bool := Qltb (1 # 10000) (snd st).

(** One iteration: [for x_new in [x_current - step, x_current + step]:
    if in range and de(x_new) < de(x_current): move; break]; halve
    [step] when no neighbour improves. *)
Definition walras_body (de : Q -> flt) (total_x : Q) (st : Q * Q) : Q * Q :=
  let '(x_current, step) := st in
  let better x_new :=
    Qltb (1 # 10) x_new && Qltb x_new (total_x - (1 # 10)) && flt_ltb (de x_new) (de x_current) in
  let xl := Qred (x_current - step) in
  let xr := Qred (x_current + step) in
  if better xl then (xl, step)
  else if better xr then (xr, step)
  else (x_current, Qred (step * (1 # 2))).

(** [list.sort(key=...)] : stable insertion sort under [<] on the keys. *)
Fixpoint insert_by {A : Type} (key : A -> flt) (a : A) (l : list A) : list A :=
  match l with
  | [] => [a]
  | b :: l' => if flt_ltb (key a) (key b) then a :: l else b :: insert_by key a l'
  end.

Definition sort_by {A : Type} (key : A -> flt) (l : list A) : list A :=
  fold_left (fun acc a => insert_by key a acc) l [].

(** One of the three best grid candidates [(x_init, excess)]. *)
Definition walras_candidate (fuel : nat) (util_func_a util_func_b : Q -> Q -> Q)
    (total_x total_y price_ratio : Q) (cand : Q * flt) : option (list (Q * Q)) :=
  let '(x_init, ex) := cand in
  if flt_ltb ex (Fin 1) then
    match while_loop walras_guard
            (walras_body (demand_excess util_func_a util_func_b total_x total_y price_ratio) total_x)
            fuel (x_init, 1 # 10) with
    | Some (x_current, _) =>
        let '(best_excess, best_y) :=
          y_scan util_func_a util_func_b total_x total_y price_ratio x_current 50 in
        match best_y with
        | Some y => if flt_ltb best_excess (Fin 1) then Some [(x_current, y)] else Some []
        | None => Some []
        end
    | None => None
    end
  else Some [].

(** The body of [for price_ratio in price_ratios]. *)
Definition walras_price (fuel : nat) (util_func_a util_func_b : Q -> Q -> Q)
    (total_x total_y price_ratio : Q) : option (list (Q * Q)) :=
  let de := demand_excess util_func_a util_func_b total_x total_y price_ratio in
  let x_grid := linspace (1 # 10) (total_x - (1 # 10)) 30 in
  let x_candidates := sort_by snd (map (fun x => (x, de x)) x_grid) in
  gather (map (walras_candidate fuel util_func_a util_func_b total_x total_y price_ratio)
              (firstn 3 x_candidates)).

(** [price_ratios = np.exp(np.linspace(-5, 5, num_prices))]; [qexp] is the
    rational value of [np.exp] at each grid point. *)
Definition price_ratios (qexp : Q -> Q) (num_prices : nat) : list Q :=
  map qexp (linspace (-5) 5 num_prices).

(** Squared distance; [np.sqrt(d) < 1.0] holds exactly when [d < 1] for
    [d >= 0]. *)
Definition dist_sq (p1 p2 : Q * Q) : Q :=
  (fst p1 - fst p2) ^ 2 + (snd p1 - snd p2) ^ 2.

(** The pass [# Remove nearby points]. *)
Definition remove_nearby (pts : list (Q * Q)) : list (Q * Q) :=
  fold_left (fun filtered p1 =>
               if existsb (fun p2 => Qltb (dist_sq p1 p2) 1) filtered then filtered
               else filtered ++ [p1])
            pts [].

(** The candidates appended to [equilibrium_points], before deduplication. *)
Definition equilibrium_points (fuel : nat) (qexp : Q -> Q) (util_func_a util_func_b : Q -> Q -> Q)
    (total_x total_y : Q) (num_prices : nat) : option (list (Q * Q)) :=
  gather (map (walras_price fuel util_func_a util_func_b total_x total_y)
              (price_ratios qexp num_prices)).

Definition find_walrasian_equilibrium (fuel : nat) (qexp : Q -> Q)
    (util_func_a util_func_b : Q -> Q -> Q) (total_x total_y : Q) (num_prices : nat)
    : option (list (Q * Q)) :=
  match equilibrium_points fuel qexp util_func_a util_func_b total_x total_y num_prices with
  | Some pts => Some (remove_nearby pts)
  | None => None
  end.

(** ** Concrete utility functions used in the examples *)

(** ["x*y"] *)
Definition util_xy (x y : Q) : Q := x * y.

(** ["x + y"] *)
Definition util_sum (x y : Q) : Q := x + y.

(** ["x - y"] *)
Definition util_diff (x y : Q) : Q := x - y.

(** A rational value of [np.exp]: the first terms of its Taylor series. *)
Fixpoint exp_series (n : nat) (x term acc : Q) (k : nat) : Q :=
  match n with
  | O => acc
  | S n' =>
      let term' := Qred (term * x / inject_Z (Z.of_nat k)) in
      exp_series n' x term' (Qred (acc + term')) (S k)
  end.

Definition qexp_series (x : Q) : Q := exp_series 20 x 1 1 1.

(** Python's [a <= b] on floats. *)
Definition flt_leb (a b : flt) : bool :=
  match a, b with
  | NaN, _ | _, NaN => false
  | Fin p, Fin q => Qle_bool p q
  | NInf, _ => true
  | _, PInf => true
  | _, _ => false
  end.

(** The moving average as the spec words it (C8): for every window
    position [i], the mean of [ys[i..i+w-1]]. *)
Definition spec_moving_average (w : nat) (ys : list Q) : list Q :=
  map (fun i => fold_right Qplus 0 (firstn w (skipn i ys)) / inject_Z (Z.of_nat w))
      (seq 0 (length ys - w + 1)).

(** Whether every returned point [(x_i, y_i)] of a result of
    [calculate_offer_curves] has an MRS gap of at most [bound]. *)
Definition offer_gaps_within (fa fb : Q -> Q -> Q) (total_x total_y bound : Q)
    (r : option (list Q * list Q)) : bool :=
  match r with
  | Some (xs, ys) =>
      forallb (fun p => flt_leb (mrs_gap fa fb total_x total_y (fst p) (snd p)) (Fin bound))
              (combine xs ys)
  | None => true
  end.

(** ** [parse_utility_function]: sympify and lambdify

    [parse_utility_function] hands the string to sympy's [sympify] and the
    resulting expression to [lambdify((x, y), expr, 'numpy')], turning any
    exception of the two into [ValueError(f"Invalid utility function: {e}")].

    [sympify] is sympy's, not this repository's: its outcome on each string
    is the parameter [sympify] of the definitions below.  It raises (with
    the text of the exception), or returns an expression of the forms of
    [sexpr], or returns an object outside these forms ([SympifiedOther],
    for which what [lambdify] does is not modelled).

    [lambdify] prints the expression as the body of
    [def _lambdifygenerated(x, y): return ...] and runs it in a namespace
    made of the numpy module and Python's builtins, then updated with every
    [Symbol] of the expression bound to itself
    ([namespace.update({str(term): term})] over [expr.atoms(Symbol)]).  In
    the body a [Symbol] and a named constant ([pi] is printed [pi], [E] is
    printed [e]) are names, and a call is printed with its function's name
    ([foo(x)] for an undefined function [foo]).  A name is looked up among
    the arguments [x] and [y], then in the namespace; [NameError] is raised
    when neither binds it.  Evaluation is Python's: strict, left to right,
    the callee's name before the arguments.  What the operators and the
    functions of the namespace compute (numpy's, or sympy's on a sympy
    object) is the parameter [numpy_env]. *)

Inductive binop : Type := BAdd | BSub | BMul | BDiv | BPow.

(** The expression [sympify] returns. *)
Inductive sexpr : Type :=
| SNum (q : Q)                         (* Integer, Rational, Float *)
| SSym (name : string)                 (* Symbol(name) *)
| SConst (printed : string)            (* a number symbol, printed as a name *)
| SNeg (a : sexpr)
| SBin (o : binop) (a b : sexpr)
| SCall (f : string) (args : list sexpr).


(** A Python value in the body: a float, a sympy object (a [Symbol], and
    what arithmetic with one gives), or another object the namespace binds
    to a name (a function, a module). *)
Inductive pyobj : Type :=
| OFloat (v : flt)
| OSympy (e : sexpr)
| OObject (name : string).

(** A Python value or a raised exception. *)
Inductive pyval : Type :=
| PVal (v : pyobj)
| PExc (msg : string).

(** What a name is bound to: a value, or a function of the evaluated
    arguments. *)
Inductive nsval : Type :=
| NsValue (v : pyobj)
| NsFunction (g : list pyobj -> pyval).

(** The numpy namespace of [lambdify] (with Python's builtins) and the
    Python operators on the values of the body. *)
Record numpy_env : Type := {
  np_binop : binop -> pyobj -> pyobj -> pyval;
  np_neg : pyobj -> pyval;
  np_ns : string -> option nsval
}.

Definition name_error (n : string) : string :=
  ("NameError: name '" ++ n ++ "' is not defined")%string.

Definition not_callable : string := "TypeError: object is not callable"%string.


(** Name resolution in the body: the arguments, then the namespace, in
    which the Symbols [syms] of the expression are bound to themselves. *)
Definition lookup_name (np : numpy_env) (syms : list string) (px py : flt) (n : string)
    : option nsval :=
  if String.eqb n "x"%string then Some (NsValue (OFloat px))
  else if String.eqb n "y"%string then Some (NsValue (OFloat py))
  else if existsb (String.eqb n) syms then Some (NsValue (OSympy (SSym n)))
  else np_ns np n.

(** A name used as a value. *)
Definition eval_name (np : numpy_env) (syms : list string) (px py : flt) (n : string) : pyval :=
  match lookup_name np syms px py n with
  | Some (NsValue v) => PVal v
  | Some (NsFunction _) => PVal (OObject n)
  | None => PExc (name_error n)
  end.

(** The body, evaluated at [(px, py)]. *)
Fixpoint lambdify_body (np : numpy_env) (syms : list string) (px py : flt) (e : sexpr)
    : pyval :=
  match e with
  | SNum q => PVal (OFloat (Fin q))
  | SSym n => eval_name np syms px py n
  | SConst n => eval_name np syms px py n
  | SNeg a =>
      match lambdify_body np syms px py a with
      | PVal v => np_neg np v
      | PExc m => PExc m
      end
  | SBin o a b =>
      match lambdify_body np syms px py a with
      | PExc m => PExc m
      | PVal va =>
          match lambdify_body np syms px py b with
          | PExc m => PExc m
          | PVal vb => np_binop np o va vb
          end
      end
  | SCall f args =>
      match lookup_name np syms px py f with
      | None => PExc (name_error f)
      | Some fv =>
          match (fix eval_args (l : list sexpr) : string + list pyobj :=
                   match l with
                   | [] => inr []
                   | a :: l' =>
                       match lambdify_body np syms px py a with
                       | PExc m => inl m
                       | PVal v =>
                           match eval_args l' with
                           | inl m => inl m
                           | inr vs => inr (v :: vs)
                           end
                       end
                   end) args with
          | inl m => PExc m
          | inr vs =>
              match fv with
              | NsFunction g => g vs
              | NsValue _ => PExc not_callable
              end
          end
      end
  end.

(** The arguments of a call evaluated left to right: the inner loop of
    [lambdify_body]. *)
Definition eval_args (np : numpy_env) (syms : list string) (px py : flt)
    : list sexpr -> string + list pyobj :=
  fix eval_args (l : list sexpr) : string + list pyobj :=
    match l with
    | [] => inr []
    | a :: l' =>
        match lambdify_body np syms px py a with
        | PExc m => inl m
        | PVal v =>
            match eval_args l' with
            | inl m => inl m
            | inr vs => inr (v :: vs)
            end
        end
    end.






(** Induction on [sexpr] with a hypothesis for each argument of a call. *)
Section sexpr_induction.
Variable P : sexpr -> Prop.
Hypothesis HNum : forall q, P (SNum q).
Hypothesis HSym : forall n, P (SSym n).
Hypothesis HConst : forall n, P (SConst n).
Hypothesis HNeg : forall a, P a -> P (SNeg a).
Hypothesis HBin : forall o a b, P a -> P b -> P (SBin o a b).
Hypothesis HCall : forall f args, Forall P args -> P (SCall f args).

End sexpr_induction.

(** ** Lattices of the local searches

    Both local searches move by [+/- step] and halve [step]; the positions a
    search can reach from [o] at step [s] inside [[lo, hi]] lie in the
    finite list [lattice o lo hi s]. *)
Definition zrange (n : nat) : list Z :=
  map (fun i => (Z.of_nat i - Z.of_nat n)%Z) (seq 0 (2 * n + 1)).

Definition lattice (o lo hi s : Q) : list Q :=
  let n := (Z.to_nat (Qceiling ((hi - o) / s)) + Z.to_nat (Qceiling ((o - lo) / s)))%nat in
  map (fun k => Qred (o + inject_Z k * s)) (zrange n).

(** ** Invariants used below *)

(** The refinement loop of [calculate_offer_curves] keeps
    [best_diff = gap best_y]. *)
Definition offer_inv (gap : Q -> flt) (st : offer_state) : Prop :=
  best_diff st = gap (best_y st).

(** Later points of the filtered list are at distance at least 1 from
    earlier ones. *)
Definition separated (l : list (Q * Q)) : Prop :=
  forall i j p q, (i < j)%nat -> nth_error l i = Some p -> nth_error l j = Some q ->
    1 <= dist_sq q p.

(** * General lemmas *)

Lemma Qltb_iff (a b : Q) : Qltb a b = true <-> a < b.
Proof.
  unfold Qltb. rewrite negb_true_iff. split; intro H.
  - apply Qnot_le_lt. intro Hle. apply Qle_bool_iff in Hle. congruence.
  - destruct (Qle_bool b a) eqn:E; [|reflexivity].
    apply Qle_bool_iff in E. exfalso. apply (Qlt_not_le a b); assumption.
Qed.

Lemma Qltb_false (a b : Q) : Qltb a b = false <-> b <= a.
Proof.
  unfold Qltb. rewrite negb_false_iff. apply Qle_bool_iff.
Qed.

Lemma fold_left_inv {A B : Type} (f : A -> B -> A) (P : A -> Prop) :
  (forall a b, P a -> P (f a b)) -> forall l a, P a -> P (fold_left f l a).
Proof.
  intros Hf l. induction l as [|b l IH]; intros a Ha; simpl; auto.
Qed.

Section While.
Context {S : Type} (guard : S -> bool) (body : S -> S).

Lemma while_loop_inv (P : S -> Prop) :
  (forall s, guard s = true -> P s -> P (body s)) ->
  forall fuel s s', P s -> while_loop guard body fuel s = Some s' ->
    P s' /\ guard s' = false.
Proof.
  intros Hstep fuel. induction fuel as [|n IH]; intros s s' Hs Hrun; simpl in Hrun;
    destruct (guard s) eqn:G; try discriminate.
  - inversion Hrun; subst; auto.
  - eapply IH; [apply Hstep|]; eauto.
  - inversion Hrun; subst; auto.
Qed.

(** Once the loop has exited, more fuel does not change its result. *)
Lemma while_loop_more_fuel fuel m s s' :
  while_loop guard body fuel s = Some s' ->
  while_loop guard body (fuel + m) s = Some s'.
Proof.
  revert s. induction fuel as [|n IH]; intros s Hrun; simpl in *;
    destruct (guard s) eqn:G; try discriminate; auto.
  destruct m; simpl; rewrite G; assumption.
Qed.
End While.

Lemma gather_In {A : Type} (l : list (option (list A))) pts a :
  gather l = Some pts -> In a pts -> exists rs, In (Some rs) l /\ In a rs.
Proof.
  revert pts. induction l as [|[r|] l IH]; intros pts Hg Hin; simpl in Hg.
  - inversion Hg; subst. contradiction.
  - destruct (gather l) as [rest|] eqn:E; [|discriminate].
    inversion Hg; subst. apply in_app_or in Hin as [Hin|Hin].
    + exists r. split; [left; reflexivity|assumption].
    + destruct (IH rest eq_refl Hin) as (rs & H1 & H2).
      exists rs. split; [right; assumption|assumption].
  - discriminate.
Qed.

Lemma gather_map_Some {A B : Type} (f : A -> option (list B)) (l : list A) pts b :
  gather (map f l) = Some pts -> In b pts -> exists a rs, In a l /\ f a = Some rs /\ In b rs.
Proof.
  intros Hg Hin. destruct (gather_In _ _ _ Hg Hin) as (rs & Hrs & Hb).
  apply in_map_iff in Hrs as (a & Ha & Hal). exists a, rs. auto.
Qed.

(** ** The coarse scan keeps the gap of its best point *)

Lemma coarse_scan_best (gap : Q -> flt) (ys : list Q) d y :
  coarse_scan gap ys = (d, Some y) -> d = gap y.
Proof.
  unfold coarse_scan. intro H.
  set (P := fun acc : flt * option Q =>
              match snd acc with Some y => fst acc = gap y | None => True end).
  match type of H with
  | fold_left ?f ?l ?a = _ => assert (HP : P (fold_left f l a))
  end.
  { apply fold_left_inv; [|exact I].
    intros [a o] b Ha. unfold P in *. simpl in *.
    destruct (flt_ltb (gap b) a); simpl; auto. }
  rewrite H in HP. unfold P in HP. exact HP.
Qed.

(** ** The refinement loop keeps [best_diff = gap best_y] *)

Lemma offer_body_inv gap total_y st :
  offer_inv gap st -> offer_inv gap (offer_body gap total_y st).
Proof.
  unfold offer_inv, offer_body. intro Hst.
  set (P := fun acc : Q * flt * bool => let '(b, d, _) := acc in d = gap b).
  set (F := fun (acc : Q * flt * bool) y_new =>
              let '(_, bd, _) := acc in
              if Qltb ((1 # 100) * total_y) y_new && Qltb y_new ((99 # 100) * total_y) then
                let diff := gap y_new in
                if flt_ltb diff bd then (y_new, diff, true) else acc
              else acc).
  assert (HP : P (fold_left F [Qred (best_y st - dy st); Qred (best_y st + dy st)]
                            (best_y st, best_diff st, false))).
  { apply fold_left_inv; [|exact Hst].
    intros [[b d] i] y Ha. unfold F, P in *.
    destruct (_ && _); [destruct (flt_ltb (gap y) d)|]; simpl; auto. }
  change (fold_left _ _ _) with (fold_left F [Qred (best_y st - dy st); Qred (best_y st + dy st)]
                                           (best_y st, best_diff st, false)).
  destruct (fold_left F _ _) as [[b d] i]. unfold P in HP.
  destruct i; simpl; exact HP.
Qed.

Lemma offer_slice_gap fuel fa fb total_x total_y t rs p :
  offer_slice fuel fa fb total_x total_y t = Some rs -> In p rs ->
  flt_ltb (mrs_gap fa fb total_x total_y (fst p) (snd p)) (Fin (1 # 10)) = true.
Proof.
  unfold offer_slice. set (gap := mrs_gap fa fb total_x total_y (total_x * t)).
  destruct (coarse_scan gap _) as [bd0 [y0|]] eqn:Ecs; [|intros H; inversion H; subst; contradiction].
  apply coarse_scan_best in Ecs.
  destruct (flt_ltb bd0 (Fin 1)); [|intros H; inversion H; subst; contradiction].
  destruct (while_loop _ _ _ _) as [st|] eqn:Ew; [|discriminate].
  assert (Hi0 : offer_inv gap (mk_offer_state ((1 # 10) * total_y) y0 bd0)) by exact Ecs.
  destruct (while_loop_inv _ _ (offer_inv gap) (fun s _ Hs => offer_body_inv gap total_y s Hs)
              _ _ _ Hi0 Ew) as [Hinv _].
  unfold offer_inv in Hinv.
  destruct (flt_ltb (best_diff st) (Fin (1 # 10))) eqn:Eacc; intros H Hin; inversion H; subst.
  - destruct Hin as [<-|[]]. simpl. unfold gap in Hinv. rewrite <- Hinv. exact Eacc.
  - contradiction.
Qed.

(** ** The smoothing pass *)

Lemma sum_shift (l : list Q) (z : Q) :
  fold_right Qplus z l == fold_right Qplus 0 l + z.
Proof.
  induction l as [|a l IH]; simpl.
  - ring.
  - rewrite IH. ring.
Qed.

Lemma sum_rev (l : list Q) : fold_right Qplus 0 (rev l) == fold_right Qplus 0 l.
Proof.
  induction l as [|a l IH]; simpl; [reflexivity|].
  rewrite fold_right_app. simpl. rewrite sum_shift, IH. ring.
Qed.

Lemma combine_repeat {A B : Type} (l : list A) (c : B) :
  combine l (repeat c (length l)) = map (fun a => (a, c)) l.
Proof.
  induction l as [|a l IH]; simpl; [reflexivity|]. rewrite IH. reflexivity.
Qed.

Lemma sum_scale (l : list Q) (c : Q) :
  fold_right Qplus 0 (map (fun p => fst p * snd p) (map (fun a => (a, c)) l))
  == fold_right Qplus 0 l * c.
Proof.
  induction l as [|a l IH]; simpl.
  - ring.
  - rewrite IH. ring.
Qed.

Lemma Forall2_map_same {A : Type} (R : Q -> Q -> Prop) (f g : A -> Q) (l : list A) :
  (forall a, In a l -> R (f a) (g a)) -> Forall2 R (map f l) (map g l).
Proof.
  induction l as [|a l IH]; intro H; simpl; constructor.
  - apply H. left. reflexivity.
  - apply IH. intros b Hb. apply H. right. exact Hb.
Qed.

(** ['valid'] convolution with the kernel [np.ones(w)/w] is the moving
    average of window [w]. *)
Lemma convolve_valid_average (ys : list Q) (w : nat) :
  (w <= length ys)%nat ->
  Forall2 Qeq (convolve_valid ys (repeat (1 / inject_Z (Z.of_nat w)) w))
              (spec_moving_average w ys).
Proof.
  intro Hw. unfold convolve_valid, spec_moving_average. rewrite repeat_length.
  apply Forall2_map_same. intros i Hi. apply in_seq in Hi.
  assert (Hlen : length (rev (firstn w (skipn i ys))) = w).
  { rewrite length_rev, length_firstn, length_skipn. lia. }
  replace (repeat (1 / inject_Z (Z.of_nat w)) w)
    with (repeat (1 / inject_Z (Z.of_nat w)) (length (rev (firstn w (skipn i ys)))))
    by (rewrite Hlen; reflexivity).
  rewrite combine_repeat, sum_scale, sum_rev.
  unfold Qdiv. ring.
Qed.

Lemma smooth_spec (xs ys : list Q) :
  length xs = length ys ->
  ((length xs <= 5)%nat -> smooth xs ys = (xs, ys)) /\
  ((5 < length xs)%nat ->
     fst (smooth xs ys) = skipn 4 xs /\
     length (snd (smooth xs ys)) = length (fst (smooth xs ys)) /\
     Forall2 Qeq (snd (smooth xs ys)) (spec_moving_average 5 ys)).
Proof.
  intro Hlen. unfold smooth. split; intro H.
  - destruct (Nat.ltb 5 (length xs)) eqn:E; [apply Nat.ltb_lt in E; lia|reflexivity].
  - assert (E : Nat.ltb 5 (length xs) = true) by (apply Nat.ltb_lt; exact H).
    rewrite E. cbv zeta. change (5 - 1)%nat with 4%nat. cbn [fst snd].
    assert (Hly : length (convolve_valid ys (repeat (1 / inject_Z (Z.of_nat 5)) 5))
                  = (length xs - 4)%nat).
    { unfold convolve_valid. rewrite length_map, length_seq, repeat_length. lia. }
    rewrite Hly. rewrite firstn_all2 by (rewrite length_skipn; lia).
    split; [reflexivity|]. split.
    + rewrite length_skipn. lia.
    + apply convolve_valid_average. lia.
Qed.

(** ** calculate_mrs at a diagonal point of [x*y] *)

Lemma mrs_util_xy_diag (a eps : Q) :
  ~ a == 0 -> ~ eps == 0 ->
  exists q, calculate_mrs util_xy a a eps = Fin q /\ q == -1.
Proof.
  intros Ha He. unfold calculate_mrs, util_xy.
  assert (Hdx : ((a + eps) * a - a * a) / eps == a) by (field; exact He).
  assert (Hdy : (a * (a + eps) - a * a) / eps == a) by (field; exact He).
  destruct (Qeq_bool ((a * (a + eps) - a * a) / eps) 0) eqn:E.
  - apply Qeq_bool_iff in E. rewrite Hdy in E. contradiction.
  - simpl. eexists. split; [reflexivity|].
    rewrite Hdx, Hdy. field. exact Ha.
Qed.

(** ** Acceptance tests of the equilibrium solver *)

Lemma y_scan_best fa fb total_x total_y price_ratio x samples e y :
  y_scan fa fb total_x total_y price_ratio x samples = (e, Some y) ->
  e = excess fa fb total_x total_y price_ratio x y.
Proof.
  unfold y_scan. intro H.
  set (P := fun acc : flt * option Q =>
              match snd acc with
              | Some y => fst acc = excess fa fb total_x total_y price_ratio x y
              | None => True
              end).
  match type of H with
  | fold_left ?f ?l ?a = _ => assert (HP : P (fold_left f l a))
  end.
  { apply fold_left_inv; [|exact I].
    intros [a o] t Ha. unfold P in *. simpl in *.
    destruct (_ && _); [|exact Ha].
    destruct (flt_ltb _ a); simpl; auto. }
  rewrite H in HP. exact HP.
Qed.

Lemma walras_candidate_accepted fuel fa fb total_x total_y price_ratio cand rs p :
  walras_candidate fuel fa fb total_x total_y price_ratio cand = Some rs -> In p rs ->
  flt_ltb (excess fa fb total_x total_y price_ratio (fst p) (snd p)) (Fin 1) = true.
Proof.
  destruct cand as [x_init ex]. unfold walras_candidate.
  destruct (flt_ltb ex (Fin 1)); [|intros H; inversion H; subst; contradiction].
  destruct (while_loop _ _ _ _) as [[x_current step]|]; [|discriminate].
  destruct (y_scan _ _ _ _ _ _ 50) as [be [y|]] eqn:Ey;
    [|intros H; inversion H; subst; contradiction].
  apply y_scan_best in Ey.
  destruct (flt_ltb be (Fin 1)) eqn:Eacc; intros H Hin; inversion H; subst; [|contradiction].
  destruct Hin as [<-|[]]. simpl. exact Eacc.
Qed.

Lemma equilibrium_points_accepted fuel qexp fa fb total_x total_y num_prices pts p :
  equilibrium_points fuel qexp fa fb total_x total_y num_prices = Some pts -> In p pts ->
  exists price_ratio, In price_ratio (price_ratios qexp num_prices) /\
    flt_ltb (excess fa fb total_x total_y price_ratio (fst p) (snd p)) (Fin 1) = true.
Proof.
  unfold equilibrium_points. intros Hg Hin.
  destruct (gather_map_Some _ _ _ _ Hg Hin) as (price_ratio & rs & Hpr & Hrs & Hp).
  exists price_ratio. split; [exact Hpr|].
  unfold walras_price in Hrs.
  destruct (gather_map_Some _ _ _ _ Hrs Hp) as (cand & rs' & _ & Hc & Hp').
  exact (walras_candidate_accepted _ _ _ _ _ _ _ _ _ Hc Hp').
Qed.

(** Both summands of an accepted excess are below the tolerance. *)
Lemma flt_sum_abs_lt (a b : flt) (tol : Q) :
  flt_ltb (flt_add (flt_abs a) (flt_abs b)) (Fin tol) = true ->
  flt_ltb (flt_abs a) (Fin tol) = true /\ flt_ltb (flt_abs b) (Fin tol) = true.
Proof.
  destruct a as [p| | |], b as [q| | |]; simpl; try discriminate.
  rewrite !Qltb_iff. intro H.
  pose proof (Qabs_nonneg p). pose proof (Qabs_nonneg q). split; lra.
Qed.

(** ** The deduplication pass *)

Lemma remove_nearby_incl (pts : list (Q * Q)) p :
  In p (remove_nearby pts) -> In p pts.
Proof.
  unfold remove_nearby.
  set (P := fun acc : list (Q * Q) => forall p, In p acc -> In p pts).
  assert (HP : forall l acc, incl l pts -> P acc ->
                 P (fold_left (fun filtered p1 =>
                      if existsb (fun p2 => Qltb (dist_sq p1 p2) 1) filtered then filtered
                      else filtered ++ [p1]) l acc)).
  { induction l as [|a l IH]; intros acc Hl Hacc; simpl; [exact Hacc|].
    apply IH; [intros b Hb; apply Hl; right; exact Hb|].
    destruct (existsb _ acc); [exact Hacc|].
    intros b Hb. apply in_app_or in Hb as [Hb|[<-|[]]]; [apply Hacc; exact Hb|].
    apply Hl. left. reflexivity. }
  apply HP; [intros b Hb; exact Hb|]. intros b [].
Qed.

Lemma remove_nearby_separated (pts : list (Q * Q)) : separated (remove_nearby pts).
Proof.
  unfold remove_nearby. apply fold_left_inv.
  - intros acc p1 Hacc. destruct (existsb _ acc) eqn:E; [exact Hacc|].
    intros i j p q Hij Hi Hj.
    assert (Hjlen : (j < length (acc ++ [p1]))%nat)
      by (apply nth_error_Some; rewrite Hj; discriminate).
    rewrite length_app in Hjlen. simpl in Hjlen.
    rewrite nth_error_app1 in Hi by lia.
    destruct (Nat.lt_ge_cases j (length acc)) as [Hj'|Hj'].
    + rewrite nth_error_app1 in Hj by exact Hj'. exact (Hacc i j p q Hij Hi Hj).
    + rewrite nth_error_app2 in Hj by exact Hj'.
      replace (j - length acc)%nat with 0%nat in Hj by lia.
      simpl in Hj. inversion Hj; subst q.
      assert (Hin : In p acc) by (eapply nth_error_In; exact Hi).
      destruct (Qltb (dist_sq p1 p) 1) eqn:Ed.
      * assert (Ht : existsb (fun p2 => Qltb (dist_sq p1 p2) 1) acc = true)
          by (apply existsb_exists; exists p; auto).
        rewrite E in Ht. discriminate.
      * apply Qltb_false in Ed. exact Ed.
  - intros i j p q _ Hi. destruct i; discriminate.
Qed.

Lemma calculate_offer_curves_raw fuel fa fb total_x total_y e1 e2 e3 e4 n pts :
  offer_accepted fuel fa fb total_x total_y n = Some pts -> (length pts <= 5)%nat ->
  calculate_offer_curves fuel fa fb total_x total_y e1 e2 e3 e4 n = Some (map fst pts, map snd pts).
Proof.
  intros Hacc Hle. unfold calculate_offer_curves. rewrite Hacc.
  destruct (smooth_spec (map fst pts) (map snd pts)) as [H _];
    [rewrite !length_map; reflexivity|].
  rewrite H by (rewrite length_map; exact Hle). reflexivity.
Qed.

Lemma dist_sq_sym (p q : Q * Q) : dist_sq p q == dist_sq q p.
Proof. unfold dist_sq. ring. Qed.

(** ** The bisection of [calculate_indifference_curves] *)

Lemma bisect_body_width f xi u low high :
  snd (bisect_body f xi u (low, high)) - fst (bisect_body f xi u (low, high))
  == (high - low) * (1 # 2).
Proof.
  unfold bisect_body. destruct (Qltb _ u); cbn [fst snd]; rewrite Qred_correct; field.
Qed.

(** A bracket of width at most [2^n * 1e-6] is narrowed below [1e-6]
    within [n] iterations. *)
Lemma bisect_runs f xi u (n : nat) : forall low high,
  high - low <= inject_Z (2 ^ Z.of_nat n) * (1 # 1000000) ->
  exists st', while_loop bisect_guard (bisect_body f xi u) n (low, high) = Some st'.
Proof.
  induction n as [|m IH]; intros low high Hw; cbn [while_loop];
    destruct (bisect_guard (low, high)) eqn:G; eauto.
  - unfold bisect_guard in G. apply Qltb_iff in G.
    change (inject_Z (2 ^ Z.of_nat 0)) with 1 in Hw. lra.
  - destruct (bisect_body f xi u (low, high)) as [l' h'] eqn:B.
    pose proof (bisect_body_width f xi u low high) as Hb. rewrite B in Hb. cbn [fst snd] in Hb.
    apply IH.
    rewrite Nat2Z.inj_succ, Z.pow_succ_r, inject_Z_mult in Hw by lia.
    change (inject_Z 2) with 2 in Hw. lra.
Qed.

Lemma bisect_fuel_enough (max_y : Q) :
  max_y - (1 # 10) <= inject_Z (2 ^ Z.of_nat (bisect_fuel max_y)) * (1 # 1000000).
Proof.
  unfold bisect_fuel.
  set (c := Qceiling ((max_y - (1 # 10)) * 1000000)).
  rewrite Z2Nat.id by apply Z.log2_up_nonneg.
  assert (Hc : (c <= 2 ^ Z.log2_up c)%Z).
  { destruct (Z.le_gt_cases c 1) as [H|H].
    - rewrite Z.log2_up_eqn0 by exact H. simpl. exact H.
    - apply Z.log2_up_spec. lia. }
  pose proof (Qle_ceiling ((max_y - (1 # 10)) * 1000000)) as Hq. fold c in Hq.
  rewrite Zle_Qle in Hc. lra.
Qed.

(** The invariant of the bisection: the bracket stays in [[0.1, max_y]]
    and contains a solution of [f(xi, y) = u]. *)
Lemma bisect_accurate f max_y xi u :
  (forall a b, 1 # 10 <= a -> a <= b -> b <= max_y -> f xi a <= f xi b) ->
  (exists r, 1 # 10 <= r /\ r <= max_y /\ f xi r == u) ->
  exists r, 1 # 10 <= r /\ r <= max_y /\ f xi r == u /\
    Qabs (bisect f max_y xi u - r) <= 1 # 1000000.
Proof.
  intros Hmono Hex.
  set (P := fun st : Q * Q =>
              1 # 10 <= fst st /\ snd st <= max_y /\
              exists r, fst st <= r /\ r <= snd st /\ f xi r == u).
  assert (Hstep : forall st, bisect_guard st = true -> P st -> P (bisect_body f xi u st)).
  { intros [low high] _ (Hlo & Hhi & r & Hlr & Hrh & Hr). cbn [fst snd] in *.
    change (bisect_body f xi u (low, high))
      with (if Qltb (f xi (Qred ((low + high) / 2))) u then (Qred ((low + high) / 2), high)
            else (low, Qred ((low + high) / 2))).
    assert (Hmid : Qred ((low + high) / 2) == (low + high) * (1 # 2))
      by (rewrite Qred_correct; field).
    set (mid := Qred ((low + high) / 2)) in *.
    destruct (Qltb (f xi mid) u) eqn:E; unfold P; cbn [fst snd].
    - apply Qltb_iff in E.
      destruct (Qlt_le_dec r mid) as [Hrm|Hrm].
      + exfalso. assert (f xi r <= f xi mid) by (apply Hmono; lra). lra.
      + repeat split; try lra. exists r. repeat split; lra.
    - apply Qltb_false in E. repeat split; try lra.
      destruct (Qlt_le_dec mid r) as [Hrm|Hrm].
      + assert (f xi mid <= f xi r) by (apply Hmono; lra).
        exists mid. repeat split; lra.
      + exists r. repeat split; lra. }
  destruct Hex as (r0 & Hr0 & Hr0' & Hfr0).
  destruct (bisect_runs f xi u (bisect_fuel max_y) (1 # 10) max_y (bisect_fuel_enough max_y))
    as [[low high] Hrun].
  destruct (while_loop_inv bisect_guard (bisect_body f xi u) P Hstep
              (bisect_fuel max_y) (1 # 10, max_y) (low, high)
              ltac:(unfold P; cbn [fst snd]; repeat split; [lra|lra|exists r0; repeat split; lra])
              Hrun) as [(Hlo & Hhi & r & Hlr & Hrh & Hr) Hg].
  unfold bisect. rewrite Hrun. cbv beta iota.
  unfold bisect_guard in Hg. cbv beta iota zeta in Hg. apply Qltb_false in Hg.
  cbn [fst snd] in Hlo, Hhi, Hlr, Hrh.
  exists r. repeat split; try lra.
  apply Qabs_Qle_condition. split; lra.
Qed.

(** ** Termination of the local searches *)

Lemma while_loop_terminates {St : Type} (guard : St -> bool) (body : St -> St)
    (Inv : St -> Prop) (h m : St -> nat) :
  (forall s, Inv s -> guard s = true ->
     Inv (body s) /\ ((h (body s) < h s)%nat \/ (h (body s) = h s /\ (m (body s) < m s)%nat))) ->
  forall s, Inv s -> exists fuel s', while_loop guard body fuel s = Some s'.
Proof.
  intros Hstep.
  assert (Hgen : forall a b s, h s = a -> m s = b -> Inv s ->
                   exists fuel s', while_loop guard body fuel s = Some s').
  { intro a. induction a as [a IHa] using (well_founded_induction Wf_nat.lt_wf).
    intro b. induction b as [b IHb] using (well_founded_induction Wf_nat.lt_wf).
    intros s Ha Hb Hs.
    destruct (guard s) eqn:G.
    - destruct (Hstep s Hs G) as [Hs' [Hlt|[Heq Hlt]]].
      + destruct (IHa (h (body s)) ltac:(lia) (m (body s)) (body s) eq_refl eq_refl Hs')
          as (n & s' & Hr).
        exists (Datatypes.S n), s'. cbn [while_loop]. rewrite G. exact Hr.
      + destruct (IHb (m (body s)) ltac:(lia) (body s) ltac:(lia) eq_refl Hs')
          as (n & s' & Hr).
        exists (Datatypes.S n), s'. cbn [while_loop]. rewrite G. exact Hr.
    - exists 0%nat, s. cbn [while_loop]. rewrite G. reflexivity. }
  intros s Hs. exact (Hgen _ _ s eq_refl eq_refl Hs).
Qed.

Lemma flt_ltb_irrefl (a : flt) : flt_ltb a a = false.
Proof. destruct a; try reflexivity. apply Qltb_false. apply Qle_refl. Qed.

Lemma flt_ltb_trans (a b c : flt) :
  flt_ltb a b = true -> flt_ltb b c = true -> flt_ltb a c = true.
Proof.
  destruct a, b, c; simpl; intros H1 H2; try discriminate; try reflexivity.
  apply Qltb_iff in H1, H2. apply Qltb_iff. lra.
Qed.

Lemma filter_length_mono {A : Type} (P P' : A -> bool) (l : list A) :
  (forall p, In p l -> P' p = true -> P p = true) ->
  (length (filter P' l) <= length (filter P l))%nat.
Proof.
  induction l as [|a l IH]; intro H; simpl; [lia|].
  specialize (IH (fun p Hp => H p (or_intror Hp))).
  destruct (P' a) eqn:E1, (P a) eqn:E2; simpl; try lia.
  rewrite (H a (or_introl eq_refl) E1) in E2. discriminate.
Qed.

(** Filtering by a stronger predicate that rejects one accepted element
    keeps strictly fewer elements. *)
Lemma filter_length_strict {A : Type} (P P' : A -> bool) (l : list A) (x : A) :
  (forall p, In p l -> P' p = true -> P p = true) ->
  In x l -> P x = true -> P' x = false ->
  (length (filter P' l) < length (filter P l))%nat.
Proof.
  induction l as [|a l IH]; intros H Hx HP HP'; [destruct Hx|]. simpl.
  destruct Hx as [<-|Hx].
  - rewrite HP, HP'. simpl.
    pose proof (filter_length_mono P P' l (fun p Hp => H p (or_intror Hp))). lia.
  - specialize (IH (fun p Hp => H p (or_intror Hp)) Hx HP HP').
    destruct (P' a) eqn:E1, (P a) eqn:E2; simpl; try lia.
    rewrite (H a (or_introl eq_refl) E1) in E2. discriminate.
Qed.

Lemma zrange_In (n : nat) (k : Z) :
  (- Z.of_nat n <= k <= Z.of_nat n)%Z -> In k (zrange n).
Proof.
  intro H. unfold zrange. apply in_map_iff.
  exists (Z.to_nat (k + Z.of_nat n)). split; [lia|]. apply in_seq. lia.
Qed.

Lemma lattice_In (o lo hi s : Q) (k : Z) :
  0 < s -> lo <= o + inject_Z k * s -> o + inject_Z k * s <= hi ->
  In (Qred (o + inject_Z k * s)) (lattice o lo hi s).
Proof.
  intros Hs Hlo Hhi. unfold lattice. apply (in_map (fun k => Qred (o + inject_Z k * s))).
  apply zrange_In.
  assert (Ha := Qle_ceiling ((hi - o) / s)).
  assert (Hb := Qle_ceiling ((o - lo) / s)).
  assert (Hk1 : inject_Z k <= (hi - o) / s) by (apply Qle_shift_div_l; [exact Hs | lra]).
  assert (Hk2 : inject_Z (- k) <= (o - lo) / s)
    by (rewrite inject_Z_opp; apply Qle_shift_div_l; [exact Hs | lra]).
  assert (Z1 : (k <= Qceiling ((hi - o) / s))%Z) by (rewrite Zle_Qle; lra).
  assert (Z2 : (- k <= Qceiling ((o - lo) / s))%Z) by (rewrite Zle_Qle; lra).
  lia.
Qed.

(** Halving a step above the threshold [e] lowers [floor (step / e)]. *)
Lemma halve_floor_lt (e s s' : Q) :
  0 < e -> e < s -> s' == s * (1 # 2) ->
  (Z.to_nat (Qfloor (s' / e)) < Z.to_nat (Qfloor (s / e)))%nat.
Proof.
  intros He Hs Hs'.
  assert (Hne : ~ e == 0) by (intro H; rewrite H in He; apply (Qlt_irrefl 0); exact He).
  assert (Ht : 1 < s / e) by (apply Qlt_shift_div_l; [exact He | lra]).
  assert (Ht' : s' / e == (s / e) * (1 # 2)) by (rewrite Hs'; field; exact Hne).
  pose proof (Qfloor_le (s / e)) as F1. pose proof (Qlt_floor (s / e)) as F2.
  pose proof (Qfloor_le (s' / e)) as F3.
  rewrite inject_Z_plus in F2.
  set (A := Qfloor (s' / e)) in *. set (B := Qfloor (s / e)) in *.
  assert (HB : (1 <= B)%Z).
  { assert (0 < B)%Z; [|lia]. rewrite Zlt_Qlt. change (inject_Z 1) with 1 in F2.
    change (inject_Z 0) with 0. lra. }
  assert (HAB : (A < B)%Z).
  { destruct (Z.lt_ge_cases A B) as [H|H]; [exact H|]. exfalso.
    rewrite Zle_Qle in H, HB. change (inject_Z 1) with 1 in F2, HB. lra. }
  lia.
Qed.

Lemma walras_loop_terminates (de : Q -> flt) (total_x x_init : Q) :
  exists fuel st, while_loop walras_guard (walras_body de total_x) fuel (x_init, 1 # 10) = Some st.
Proof.
  apply (while_loop_terminates walras_guard (walras_body de total_x)
           (fun st => 0 < snd st /\ exists k, fst st == x_init + inject_Z k * snd st)
           (fun st => Z.to_nat (Qfloor (snd st / (1 # 10000))))
           (fun st => length (filter (fun p => flt_ltb (de p) (de (fst st)))
                                     (lattice x_init (1 # 10) (total_x - (1 # 10)) (snd st))))).
  - intros [x s] [Hs [k Hk]] G. cbn [fst snd] in *.
    unfold walras_guard in G. cbn [snd] in G. apply Qltb_iff in G.
    unfold walras_body. cbv beta iota zeta.
    destruct (Qltb (1 # 10) (Qred (x - s)) && Qltb (Qred (x - s)) (total_x - (1 # 10))
              && flt_ltb (de (Qred (x - s))) (de x)) eqn:E1.
    + apply andb_prop in E1 as [E1 Ed]. apply andb_prop in E1 as [R1 R2].
      apply Qltb_iff in R1, R2. rewrite Qred_correct in R1, R2.
      cbn [fst snd]. split.
      { split; [exact Hs|]. exists (k + -1)%Z. rewrite Qred_correct, inject_Z_plus.
        change (inject_Z (-1)) with (-1). lra. }
      right. split; [reflexivity|].
      apply filter_length_strict with (x := Qred (x - s)).
      * intros p _ Hp. exact (flt_ltb_trans _ _ _ Hp Ed).
      * rewrite (Qred_complete (x - s) (x_init + inject_Z (k + -1) * s))
          by (rewrite inject_Z_plus; change (inject_Z (-1)) with (-1); lra).
        apply lattice_In; [exact Hs| |]; rewrite inject_Z_plus;
          change (inject_Z (-1)) with (-1); lra.
      * exact Ed.
      * apply flt_ltb_irrefl.
    + destruct (Qltb (1 # 10) (Qred (x + s)) && Qltb (Qred (x + s)) (total_x - (1 # 10))
                && flt_ltb (de (Qred (x + s))) (de x)) eqn:E2.
      * apply andb_prop in E2 as [E2 Ed]. apply andb_prop in E2 as [R1 R2].
        apply Qltb_iff in R1, R2. rewrite Qred_correct in R1, R2.
        cbn [fst snd]. split.
        { split; [exact Hs|]. exists (k + 1)%Z. rewrite Qred_correct, inject_Z_plus.
          change (inject_Z 1) with 1. lra. }
        right. split; [reflexivity|].
        apply filter_length_strict with (x := Qred (x + s)).
        -- intros p _ Hp. exact (flt_ltb_trans _ _ _ Hp Ed).
        -- rewrite (Qred_complete (x + s) (x_init + inject_Z (k + 1) * s))
             by (rewrite inject_Z_plus; change (inject_Z 1) with 1; lra).
           apply lattice_In; [exact Hs| |]; rewrite inject_Z_plus;
             change (inject_Z 1) with 1; lra.
        -- exact Ed.
        -- apply flt_ltb_irrefl.
      * cbn [fst snd]. split.
        { split; [rewrite Qred_correct; lra|]. exists (2 * k)%Z.
          rewrite Qred_correct, inject_Z_mult. change (inject_Z 2) with 2. lra. }
        left. apply halve_floor_lt; [reflexivity | exact G | apply Qred_correct].
  - cbn [fst snd]. split; [reflexivity|]. exists 0%Z. change (inject_Z 0) with 0. lra.
Qed.

(** One iteration of the offer refinement either moves to a neighbour in
    range with a strictly smaller gap, keeping [dy], or halves [dy] and
    keeps the rest. *)
Lemma offer_body_cases (gap : Q -> flt) (total_y : Q) (st : offer_state) :
  (dy (offer_body gap total_y st) = dy st /\
   best_diff (offer_body gap total_y st) = gap (best_y (offer_body gap total_y st)) /\
   flt_ltb (best_diff (offer_body gap total_y st)) (best_diff st) = true /\
   (best_y (offer_body gap total_y st) = Qred (best_y st - dy st) \/
    best_y (offer_body gap total_y st) = Qred (best_y st + dy st)) /\
   Qltb ((1 # 100) * total_y) (best_y (offer_body gap total_y st)) = true /\
   Qltb (best_y (offer_body gap total_y st)) ((99 # 100) * total_y) = true)
  \/ offer_body gap total_y st = mk_offer_state (Qred (dy st * (1 # 2))) (best_y st) (best_diff st).
Proof.
  destruct st as [d b bd]. unfold offer_body. cbn [fold_left dy best_y best_diff].
  destruct (Qltb ((1 # 100) * total_y) (Qred (b - d)) && Qltb (Qred (b - d)) ((99 # 100) * total_y))
    eqn:R1; [destruct (flt_ltb (gap (Qred (b - d))) bd) eqn:L1|]; cbv beta iota zeta;
  (destruct (Qltb ((1 # 100) * total_y) (Qred (b + d)) && Qltb (Qred (b + d)) ((99 # 100) * total_y))
     eqn:R2; [destruct (flt_ltb (gap (Qred (b + d))) _) eqn:L2|]); cbv beta iota zeta;
  try (right; reflexivity); left; cbn [dy best_y best_diff];
  repeat match goal with H : _ && _ = true |- _ => apply andb_prop in H as [? ?] end;
  repeat split; auto;
  try (eapply flt_ltb_trans; eassumption).
Qed.

Lemma offer_loop_terminates (gap : Q -> flt) (total_y y0 : Q) (bd0 : flt) :
  exists fuel st, while_loop (offer_guard total_y) (offer_body gap total_y) fuel
                    (mk_offer_state ((1 # 10) * total_y) y0 bd0) = Some st.
Proof.
  destruct (Qlt_le_dec 0 total_y) as [HT|HT].
  2: { exists 0%nat, (mk_offer_state ((1 # 10) * total_y) y0 bd0). cbn [while_loop].
       unfold offer_guard. cbn [dy].
       rewrite (proj2 (Qltb_false ((1 # 1000000) * total_y) ((1 # 10) * total_y)));
       [reflexivity | lra]. }
  apply (while_loop_terminates (offer_guard total_y) (offer_body gap total_y)
           (fun st => 0 < dy st /\ exists k, best_y st == y0 + inject_Z k * dy st)
           (fun st => Z.to_nat (Qfloor (dy st / ((1 # 1000000) * total_y))))
           (fun st => length (filter (fun p => flt_ltb (gap p) (best_diff st))
                                     (lattice y0 ((1 # 100) * total_y) ((99 # 100) * total_y)
                                              (dy st))))).
  - intros st [Hd [k Hk]] G. unfold offer_guard in G. apply Qltb_iff in G.
    destruct (offer_body_cases gap total_y st) as [(Hdy & Hbd & Hlt & Hy & R1 & R2)|Heq].
    + apply Qltb_iff in R1, R2.
      assert (Hpos : exists j : Z, best_y (offer_body gap total_y st) = Qred (y0 + inject_Z j * dy st)
                       /\ (1 # 100) * total_y <= y0 + inject_Z j * dy st
                       /\ y0 + inject_Z j * dy st <= (99 # 100) * total_y).
      { destruct Hy as [Hy|Hy]; rewrite Hy in R1, R2 |- *; rewrite Qred_correct in R1, R2.
        - exists (k + -1)%Z. rewrite inject_Z_plus. change (inject_Z (-1)) with (-1).
          split; [apply Qred_complete; lra | split; lra].
        - exists (k + 1)%Z. rewrite inject_Z_plus. change (inject_Z 1) with 1.
          split; [apply Qred_complete; lra | split; lra]. }
      destruct Hpos as (j & Hj & Hj1 & Hj2).
      split.
      { rewrite Hdy. split; [exact Hd|]. exists j. rewrite Hj, Qred_correct. reflexivity. }
      right. rewrite Hdy. split; [reflexivity|].
      apply filter_length_strict with (x := best_y (offer_body gap total_y st)).
      * intros p _ Hp. exact (flt_ltb_trans _ _ _ Hp Hlt).
      * rewrite Hj. apply lattice_In; assumption.
      * rewrite <- Hbd. exact Hlt.
      * rewrite <- Hbd. apply flt_ltb_irrefl.
    + rewrite Heq. cbn [dy best_y best_diff]. split.
      { split; [rewrite Qred_correct; lra|]. exists (2 * k)%Z.
        rewrite Qred_correct, inject_Z_mult. change (inject_Z 2) with 2. lra. }
      left. apply halve_floor_lt; [lra | exact G | apply Qred_correct].
  - cbn [dy best_y]. split; [lra|]. exists 0%Z. change (inject_Z 0) with 0. lra.
Qed.

(** ** The callable of [parse_utility_function] *)




(** ** numpy.linspace *)

Lemma linspace_length (a b : Q) (n : nat) : length (linspace a b n) = n.
Proof.
  unfold linspace. destruct n as [|[|n]]; [reflexivity|reflexivity|].
  rewrite length_map, length_seq. reflexivity.
Qed.

Lemma linspace_nth (a b : Q) (n j : nat) :
  (2 <= n)%nat -> (j < n)%nat ->
  nth j (linspace a b n) 0
  = a + inject_Z (Z.of_nat j) * ((b - a) / inject_Z (Z.of_nat (n - 1))).
Proof.
  intros Hn Hj. unfold linspace. destruct n as [|[|n]]; [lia|lia|].
  set (g := fun i : nat => a + inject_Z (Z.of_nat i) * ((b - a) / inject_Z (Z.of_nat (S (S n) - 1)))).
  rewrite (nth_indep _ 0 (g 0%nat)) by (rewrite length_map, length_seq; exact Hj).
  rewrite map_nth, seq_nth by exact Hj. reflexivity.
Qed.

Lemma linspace_step_pos (n : nat) :
  (2 <= n)%nat -> 0 < inject_Z (Z.of_nat (n - 1)).
Proof.
  intro Hn. change 0 with (inject_Z 0). rewrite <- Zlt_Qlt. lia.
Qed.

Lemma linspace_In (a b t : Q) (n : nat) :
  a <= b -> In t (linspace a b n) -> a <= t <= b.
Proof.
  intros Hab Hin. destruct n as [|[|m]].
  - destruct Hin.
  - destruct Hin as [<-|[]]. split; lra.
  - apply (In_nth _ _ 0) in Hin as (j & Hj & <-).
    rewrite linspace_length in Hj. rewrite linspace_nth by lia.
    pose proof (linspace_step_pos (S (S m)) ltac:(lia)) as Hm.
    set (M := inject_Z (Z.of_nat (S (S m) - 1))) in *.
    set (J := inject_Z (Z.of_nat j)).
    set (d := (b - a) / M).
    assert (HMd : M * d == b - a) by (unfold d; field; lra).
    assert (Hd : 0 <= d) by (apply Qle_shift_div_l; lra).
    assert (HJ0 : 0 <= J) by (unfold J; change 0 with (inject_Z 0); rewrite <- Zle_Qle; lia).
    assert (HJM : J <= M) by (unfold J, M; rewrite <- Zle_Qle; lia).
    assert (H1 : 0 <= J * d) by (apply Qmult_le_0_compat; assumption).
    assert (H2 : J * d <= M * d) by (apply Qmult_le_compat_r; assumption).
    split; lra.
Qed.

(** A map of a strictly increasing index function over [seq] is strictly sorted. *)
Lemma StronglySorted_map_seq (f : nat -> Q) (s m : nat) :
  (forall i j, (i < j)%nat -> f i < f j) -> StronglySorted Qlt (map f (seq s m)).
Proof.
  intro Hf. revert s. induction m as [|m IH]; intro s; simpl; constructor; [apply IH|].
  apply Forall_forall. intros x Hx. apply in_map_iff in Hx as (j & <- & Hj).
  apply in_seq in Hj. apply Hf. lia.
Qed.

Lemma linspace_sorted (a b : Q) (n : nat) : a < b -> StronglySorted Qlt (linspace a b n).
Proof.
  intro Hab. destruct n as [|[|m]].
  - constructor.
  - repeat constructor.
  - unfold linspace. apply StronglySorted_map_seq. intros i j Hij.
    pose proof (linspace_step_pos (S (S m)) ltac:(lia)) as Hm.
    assert (Hd : 0 < (b - a) / inject_Z (Z.of_nat (S (S m) - 1)))
      by (apply Qlt_shift_div_l; lra).
    assert (Hij' : inject_Z (Z.of_nat i) < inject_Z (Z.of_nat j)) by (rewrite <- Zlt_Qlt; lia).
    apply Qplus_lt_r. apply Qmult_lt_r; assumption.
Qed.

(** [x = a + b - x'] for the points of [linspace a b n] read from both ends. *)
Lemma linspace_reflect (a b : Q) (n j : nat) :
  (2 <= n)%nat -> (j < n)%nat ->
  a + b - nth j (linspace a b n) 0 == nth (n - 1 - j) (linspace a b n) 0.
Proof.
  intros Hn Hj. rewrite !linspace_nth by lia.
  pose proof (linspace_step_pos n Hn) as Hm.
  rewrite (Nat2Z.inj_sub (n - 1) j) by lia. unfold Z.sub. rewrite inject_Z_plus, inject_Z_opp.
  set (M := inject_Z (Z.of_nat (n - 1))) in *.
  set (J := inject_Z (Z.of_nat j)).
  set (d := (b - a) / M).
  assert (HMd : M * d == b - a) by (unfold d; field; lra).
  lra.
Qed.

Lemma StronglySorted_map_mono {A : Type} (R : A -> A -> Prop) (g : A -> Q) (l : list A) :
  (forall a b, R a b -> g a < g b) -> StronglySorted R l -> StronglySorted Qlt (map g l).
Proof.
  intros Hg Hs. induction Hs as [|a l Hs IH Hf]; simpl; constructor; [exact IH|].
  apply Forall_map. eapply Forall_impl; [|exact Hf]. intros b Hb. apply Hg. exact Hb.
Qed.

Lemma StronglySorted_skipn {A : Type} (R : A -> A -> Prop) (n : nat) (l : list A) :
  StronglySorted R l -> StronglySorted R (skipn n l).
Proof.
  revert l. induction n as [|n IH]; intros l Hs; [exact Hs|].
  destruct l as [|a l]; [constructor|]. simpl. apply IH.
  apply StronglySorted_inv in Hs as [Hs _]. exact Hs.
Qed.

Lemma In_skipn_incl {A : Type} (n : nat) (l : list A) (a : A) : In a (skipn n l) -> In a l.
Proof.
  intro H. rewrite <- (firstn_skipn n l). apply in_or_app. right. exact H.
Qed.

Lemma In_firstn_incl {A : Type} (n : nat) (l : list A) (a : A) : In a (firstn n l) -> In a l.
Proof.
  intro H. rewrite <- (firstn_skipn n l). apply in_or_app. left. exact H.
Qed.

(** ** Gathering per-iteration results: size and order *)

Lemma gather_map_length {A B : Type} (f : A -> option (list B)) (k : nat) (l : list A) pts :
  (forall a rs, In a l -> f a = Some rs -> (length rs <= k)%nat) ->
  gather (map f l) = Some pts -> (length pts <= k * length l)%nat.
Proof.
  revert pts. induction l as [|a l IH]; intros pts Hk Hg; simpl in Hg.
  - injection Hg as <-. simpl. lia.
  - destruct (f a) as [rs|] eqn:Ea; [|discriminate].
    destruct (gather (map f l)) as [rest|] eqn:Eg; [|discriminate].
    injection Hg as <-. rewrite length_app.
    pose proof (Hk a rs (or_introl eq_refl) Ea).
    pose proof (IH rest (fun b rs' Hb => Hk b rs' (or_intror Hb)) eq_refl).
    simpl length. rewrite Nat.mul_succ_r. lia.
Qed.

(** When every iteration contributes at most one point, whose abscissa is
    a strictly increasing key of the iteration, the abscissae come out
    strictly increasing. *)
Lemma gather_map_sorted {A : Type} (f : A -> option (list (Q * Q))) (key : A -> Q) (l : list A) pts :
  (forall a rs p, f a = Some rs -> In p rs -> fst p = key a) ->
  (forall a rs, f a = Some rs -> (length rs <= 1)%nat) ->
  StronglySorted Qlt (map key l) -> gather (map f l) = Some pts ->
  StronglySorted Qlt (map fst pts).
Proof.
  intros Hk H1. revert pts. induction l as [|a l IH]; intros pts Hs Hg; simpl in Hg.
  - injection Hg as <-. constructor.
  - destruct (f a) as [rs|] eqn:Ea; [|discriminate].
    destruct (gather (map f l)) as [rest|] eqn:Eg; [|discriminate].
    injection Hg as <-. simpl in Hs. apply StronglySorted_inv in Hs as [Hs Hf].
    specialize (IH rest Hs eq_refl).
    pose proof (H1 _ _ Ea) as Hl.
    destruct rs as [|p [|p' rs]]; simpl in Hl |- *; [exact IH| |lia].
    constructor; [exact IH|].
    apply Forall_forall. intros x Hx. apply in_map_iff in Hx as (q & <- & Hq).
    destruct (gather_map_Some f l rest q Eg Hq) as (a' & rs' & Ha' & Ea' & Hq').
    rewrite (Hk _ _ _ Ea' Hq'), (Hk _ _ _ Ea (or_introl eq_refl)).
    rewrite Forall_forall in Hf. apply Hf. apply in_map. exact Ha'.
Qed.

(** ** Bounds of the offer curves *)

Lemma coarse_scan_In (gap : Q -> flt) (ys : list Q) d y :
  coarse_scan gap ys = (d, Some y) -> In y ys.
Proof.
  unfold coarse_scan.
  set (P := fun acc : flt * option Q => match snd acc with Some y => In y ys | None => True end).
  assert (HP : forall l acc, incl l ys -> P acc ->
                 P (fold_left (fun acc y_test =>
                                 let diff := gap y_test in
                                 if flt_ltb diff (fst acc) then (diff, Some y_test) else acc) l acc)).
  { induction l as [|b l IH]; intros acc Hl Hacc; simpl; [exact Hacc|].
    apply IH; [intros c Hc; apply Hl; right; exact Hc|].
    destruct (flt_ltb (gap b) (fst acc)); [|exact Hacc].
    unfold P. simpl. apply Hl. left. reflexivity. }
  intro H. specialize (HP ys (PInf, None) (fun c Hc => Hc) I). cbv zeta in HP.
  rewrite H in HP. exact HP.
Qed.

(** The refinement loop leaves [best_y] and [best_diff] unchanged, or ends
    at a point in [(0.01 * total_y, 0.99 * total_y)] with a strictly
    smaller gap. *)
Lemma offer_loop_moves (gap : Q -> flt) (total_y : Q) fuel st st' :
  while_loop (offer_guard total_y) (offer_body gap total_y) fuel st = Some st' ->
  ((best_y st' = best_y st /\ best_diff st' = best_diff st) \/
   (flt_ltb (best_diff st') (best_diff st) = true /\
    (1 # 100) * total_y < best_y st' /\ best_y st' < (99 # 100) * total_y)) /\
  (offer_inv gap st -> offer_inv gap st').
Proof.
  intro Hrun. split.
  - set (P := fun s : offer_state =>
                (best_y s = best_y st /\ best_diff s = best_diff st) \/
                (flt_ltb (best_diff s) (best_diff st) = true /\
                 (1 # 100) * total_y < best_y s /\ best_y s < (99 # 100) * total_y)).
    assert (Hstep : forall s, offer_guard total_y s = true -> P s -> P (offer_body gap total_y s)).
    { intros s _ Hs. destruct (offer_body_cases gap total_y s) as [(_ & _ & Hlt & _ & R1 & R2)|Heq].
      - apply Qltb_iff in R1, R2. right. split; [|split; assumption].
        destruct Hs as [[_ Hd]|[Hd _]].
        + rewrite <- Hd. exact Hlt.
        + exact (flt_ltb_trans _ _ _ Hlt Hd).
      - rewrite Heq. exact Hs. }
    exact (proj1 (while_loop_inv _ _ P Hstep fuel st st' (or_introl (conj eq_refl eq_refl)) Hrun)).
  - intro Hi.
    exact (proj1 (while_loop_inv _ _ (offer_inv gap) (fun s _ Hs => offer_body_inv gap total_y s Hs)
                    fuel st st' Hi Hrun)).
Qed.

(** A slice contributes nothing, or the single point [(total_x * t, y)]
    with [y] strictly inside [(0.01 * total_y, 0.99 * total_y)]. *)
Lemma offer_slice_shape fuel fa fb total_x total_y t rs :
  offer_slice fuel fa fb total_x total_y t = Some rs ->
  rs = [] \/
  exists y, rs = [(total_x * t, y)] /\
    (0 < total_y -> (1 # 100) * total_y < y /\ y < (99 # 100) * total_y).
Proof.
  unfold offer_slice. set (gap := mrs_gap fa fb total_x total_y (total_x * t)).
  destruct (coarse_scan gap _) as [bd0 [y0|]] eqn:Ecs; [|intros H; injection H as <-; left; reflexivity].
  apply coarse_scan_In in Ecs.
  destruct (flt_ltb bd0 (Fin 1)); [|intros H; injection H as <-; left; reflexivity].
  destruct (while_loop _ _ _ _) as [st|] eqn:Ew; [|discriminate].
  destruct (flt_ltb (best_diff st) (Fin (1 # 10))); intro H; injection H as <-; [|left; reflexivity].
  right. exists (best_y st). split; [reflexivity|]. intro Hty.
  destruct (offer_loop_moves _ _ _ _ _ Ew) as [[[Hy _]|(_ & H1 & H2)] _].
  - rewrite Hy. cbn [best_y].
    apply linspace_In in Ecs; [|lra]. lra.
  - split; assumption.
Qed.

Lemma offer_slice_fst fuel fa fb total_x total_y t rs p :
  offer_slice fuel fa fb total_x total_y t = Some rs -> In p rs -> fst p = total_x * t.
Proof.
  intros Hs Hp. destruct (offer_slice_shape _ _ _ _ _ _ _ Hs) as [->|(y & -> & _)]; [destruct Hp|].
  destruct Hp as [<-|[]]. reflexivity.
Qed.

Lemma offer_slice_length fuel fa fb total_x total_y t rs :
  offer_slice fuel fa fb total_x total_y t = Some rs -> (length rs <= 1)%nat.
Proof.
  intro Hs. destruct (offer_slice_shape _ _ _ _ _ _ _ Hs) as [->|(y & -> & _)]; simpl; lia.
Qed.

Lemma offer_accepted_in_box fuel fa fb total_x total_y n pts :
  0 <= total_x -> 0 < total_y ->
  offer_accepted fuel fa fb total_x total_y n = Some pts ->
  Forall (fun p => (5 # 100) * total_x <= fst p /\ fst p <= (95 # 100) * total_x /\
                   (1 # 100) * total_y < snd p /\ snd p < (99 # 100) * total_y) pts.
Proof.
  intros Hx Hy Hacc. apply Forall_forall. intros p Hp.
  destruct (gather_map_Some _ _ _ _ Hacc Hp) as (t & rs & Ht & Hs & Hin).
  apply linspace_In in Ht; [|lra].
  destruct (offer_slice_shape _ _ _ _ _ _ _ Hs) as [->|(y & -> & Hb)]; [destruct Hin|].
  destruct Hin as [<-|[]]. cbn [fst snd]. destruct (Hb Hy) as [B1 B2].
  assert ((5 # 100) * total_x <= t * total_x) by (apply Qmult_le_compat_r; lra).
  assert (t * total_x <= (95 # 100) * total_x) by (apply Qmult_le_compat_r; lra).
  repeat split; lra.
Qed.

Lemma offer_accepted_sorted fuel fa fb total_x total_y n pts :
  0 < total_x ->
  offer_accepted fuel fa fb total_x total_y n = Some pts ->
  StronglySorted Qlt (map fst pts).
Proof.
  intros Hx Hacc.
  apply (gather_map_sorted _ (fun t => total_x * t) (linspace (5 # 100) (95 # 100) n) _
           (offer_slice_fst fuel fa fb total_x total_y)
           (offer_slice_length fuel fa fb total_x total_y)); [|exact Hacc].
  apply (StronglySorted_map_mono Qlt).
  - intros a b Hab. apply Qmult_lt_l; assumption.
  - apply linspace_sorted. lra.
Qed.

Lemma offer_accepted_length fuel fa fb total_x total_y n pts :
  offer_accepted fuel fa fb total_x total_y n = Some pts -> (length pts <= n)%nat.
Proof.
  intro Hacc. pose proof (gather_map_length _ 1 _ _
                            (fun t rs _ Hs => offer_slice_length fuel fa fb total_x total_y t rs Hs)
                            Hacc) as H.
  rewrite linspace_length in H. lia.
Qed.

(** ** Bounds of the moving average *)

Lemma sum_bounds (lo hi : Q) (k : list Q) :
  Forall (fun y => lo < y /\ y < hi) k -> k <> [] ->
  inject_Z (Z.of_nat (length k)) * lo < fold_right Qplus 0 k /\
  fold_right Qplus 0 k < inject_Z (Z.of_nat (length k)) * hi.
Proof.
  induction k as [|y k IH]; intros Hk Hne; [congruence|].
  apply Forall_cons_iff in Hk as [[Hy1 Hy2] Hk].
  simpl length. rewrite Nat2Z.inj_succ, <- Z.add_1_r, inject_Z_plus. simpl fold_right.
  destruct k as [|y' k].
  - simpl. change (inject_Z 0 + inject_Z 1) with 1. lra.
  - destruct (IH Hk ltac:(discriminate)) as [H1 H2]. change (inject_Z 1) with 1. lra.
Qed.

Lemma spec_moving_average_bounds (lo hi : Q) (w : nat) (ys : list Q) :
  (0 < w)%nat -> (w <= length ys)%nat ->
  Forall (fun y => lo < y /\ y < hi) ys ->
  Forall (fun m => lo < m /\ m < hi) (spec_moving_average w ys).
Proof.
  intros Hw Hlen Hys. unfold spec_moving_average. apply Forall_forall.
  intros m Hm. apply in_map_iff in Hm as (i & <- & Hi). apply in_seq in Hi.
  set (k := firstn w (skipn i ys)).
  assert (Hk : length k = w) by (unfold k; rewrite length_firstn, length_skipn; lia).
  assert (Hkf : Forall (fun y => lo < y /\ y < hi) k).
  { apply Forall_forall. intros y Hy. rewrite Forall_forall in Hys. apply Hys.
    apply In_skipn_incl with i. apply In_firstn_incl with w. exact Hy. }
  destruct (sum_bounds lo hi k Hkf) as [H1 H2]; [intro E; rewrite E in Hk; simpl in Hk; lia|].
  rewrite Hk in H1, H2.
  assert (Hwq : 0 < inject_Z (Z.of_nat w)) by (change 0 with (inject_Z 0); rewrite <- Zlt_Qlt; lia).
  split.
  - apply Qlt_shift_div_l; [exact Hwq|]. lra.
  - apply Qlt_shift_div_r; [exact Hwq|]. lra.
Qed.

Lemma Forall2_Qeq_bounds (lo hi : Q) (l1 l2 : list Q) :
  Forall2 Qeq l1 l2 -> Forall (fun m => lo < m /\ m < hi) l2 ->
  Forall (fun m => lo < m /\ m < hi) l1.
Proof.
  intro H. induction H as [|a b l1 l2 Hab _ IH]; intro Hf; constructor.
  - apply Forall_cons_iff in Hf as [[Hb1 Hb2] _]. split; lra.
  - apply IH. apply Forall_cons_iff in Hf as [_ Hf]. exact Hf.
Qed.

(** ** Bounds of the equilibrium points *)

Lemma insert_by_In {A : Type} (key : A -> flt) (a x : A) (l : list A) :
  In x (insert_by key a l) -> x = a \/ In x l.
Proof.
  induction l as [|b l IH]; simpl.
  - intros [<-|[]]. left. reflexivity.
  - destruct (flt_ltb (key a) (key b)).
    + intros [<-|H]; [left; reflexivity|right; exact H].
    + intros [<-|H]; [right; left; reflexivity|].
      destruct (IH H) as [E|E]; [left; exact E|right; right; exact E].
Qed.

Lemma sort_by_In {A : Type} (key : A -> flt) (l : list A) (x : A) :
  In x (sort_by key l) -> In x l.
Proof.
  unfold sort_by.
  assert (H : forall l acc, In x (fold_left (fun acc a => insert_by key a acc) l acc) ->
                In x l \/ In x acc).
  { induction l0 as [|a l0 IH]; intros acc Hx; simpl in Hx; [right; exact Hx|].
    destruct (IH _ Hx) as [Hl|Hacc]; [left; right; exact Hl|].
    destruct (insert_by_In key a x acc Hacc) as [<-|Hin]; [left; left; reflexivity|right; exact Hin]. }
  intro Hx. destruct (H l [] Hx) as [Hl|[]]. exact Hl.
Qed.

(** The step-halving loop of the equilibrium search stays at its start or
    ends at a point with a strictly smaller [de], and never leaves
    [(0.1, total_x - 0.1)] once inside. *)
Lemma walras_loop_moves (de : Q -> flt) (total_x : Q) fuel x0 s0 x1 s1 :
  while_loop walras_guard (walras_body de total_x) fuel (x0, s0) = Some (x1, s1) ->
  (x1 = x0 \/ flt_ltb (de x1) (de x0) = true) /\
  (1 # 10 < x0 /\ x0 < total_x - (1 # 10) -> 1 # 10 < x1 /\ x1 < total_x - (1 # 10)).
Proof.
  intro Hrun.
  set (P := fun st : Q * Q =>
              (fst st = x0 \/ flt_ltb (de (fst st)) (de x0) = true) /\
              (1 # 10 < x0 /\ x0 < total_x - (1 # 10) ->
               1 # 10 < fst st /\ fst st < total_x - (1 # 10))).
  assert (Hstep : forall st, walras_guard st = true -> P st -> P (walras_body de total_x st)).
  { intros [x s] _ [Hd Hr]. cbn [fst] in Hd, Hr. unfold walras_body. cbv beta iota zeta.
    assert (Hmove : forall x', Qltb (1 # 10) x' && Qltb x' (total_x - (1 # 10))
                               && flt_ltb (de x') (de x) = true -> P (x', s)).
    { intros x' E. apply andb_prop in E as [E Ed]. apply andb_prop in E as [R1 R2].
      apply Qltb_iff in R1, R2. unfold P. cbn [fst]. split; [right|intros _; split; assumption].
      destruct Hd as [->|Hd]; [exact Ed|exact (flt_ltb_trans _ _ _ Ed Hd)]. }
    destruct (Qltb (1 # 10) (Qred (x - s)) && Qltb (Qred (x - s)) (total_x - (1 # 10))
              && flt_ltb (de (Qred (x - s))) (de x)) eqn:E1; [exact (Hmove _ E1)|].
    destruct (Qltb (1 # 10) (Qred (x + s)) && Qltb (Qred (x + s)) (total_x - (1 # 10))
              && flt_ltb (de (Qred (x + s))) (de x)) eqn:E2; [exact (Hmove _ E2)|].
    split; assumption. }
  assert (H0 : P (x0, s0)) by (split; [left; reflexivity|intro H; exact H]).
  exact (proj1 (while_loop_inv _ _ P Hstep fuel (x0, s0) (x1, s1) H0 Hrun)).
Qed.

Lemma y_scan_range fa fb total_x total_y price_ratio x samples e y :
  y_scan fa fb total_x total_y price_ratio x samples = (e, Some y) ->
  1 # 10 < y /\ y < total_y - (1 # 10).
Proof.
  unfold y_scan. intro H.
  set (P := fun acc : flt * option Q =>
              match snd acc with Some y => 1 # 10 < y /\ y < total_y - (1 # 10) | None => True end).
  match type of H with
  | fold_left ?f ?l ?a = _ => assert (HP : P (fold_left f l a))
  end.
  { apply fold_left_inv; [|exact I].
    intros [a o] t Ha. cbv beta iota zeta.
    destruct (Qltb (1 # 10) (total_y * t) && Qltb (total_y * t) (total_y - (1 # 10))) eqn:R;
      [|exact Ha].
    destruct (flt_ltb _ (fst (a, o))); [|exact Ha].
    apply andb_prop in R as [R1 R2]. apply Qltb_iff in R1, R2. unfold P. simpl. split; assumption. }
  rewrite H in HP. exact HP.
Qed.

Lemma walras_candidate_shape fuel fa fb total_x total_y price_ratio x_init rs :
  walras_candidate fuel fa fb total_x total_y price_ratio
    (x_init, demand_excess fa fb total_x total_y price_ratio x_init) = Some rs ->
  (length rs <= 1)%nat /\
  forall p, In p rs -> 1 # 10 < fst p /\ fst p < total_x - (1 # 10) /\
                       1 # 10 < snd p /\ snd p < total_y - (1 # 10).
Proof.
  unfold walras_candidate.
  destruct (flt_ltb (demand_excess fa fb total_x total_y price_ratio x_init) (Fin 1)) eqn:E;
    [|intro H; injection H as <-; split; [simpl; lia|intros p []]].
  assert (Hx : 1 # 10 < x_init /\ x_init < total_x - (1 # 10)).
  { unfold demand_excess in E.
    destruct (Qle_bool x_init (1 # 10)) eqn:R1; [discriminate|].
    destruct (Qle_bool (total_x - (1 # 10)) x_init) eqn:R2; [discriminate|].
    split; apply Qltb_iff; unfold Qltb; [rewrite R1|rewrite R2]; reflexivity. }
  destruct (while_loop _ _ _ _) as [[x_current step]|] eqn:Ew; [|discriminate].
  destruct (walras_loop_moves _ _ _ _ _ _ _ Ew) as [_ Hr]. specialize (Hr Hx).
  destruct (y_scan _ _ _ _ _ _ 50) as [be [y|]] eqn:Ey;
    [|intro H; injection H as <-; split; [simpl; lia|intros p []]].
  apply y_scan_range in Ey.
  destruct (flt_ltb be (Fin 1)); intro H; injection H as <-; (split; [simpl; lia|]).
  - intros p [<-|[]]. cbn [fst snd]. tauto.
  - intros p [].
Qed.

Lemma walras_price_shape fuel fa fb total_x total_y price_ratio rs :
  walras_price fuel fa fb total_x total_y price_ratio = Some rs ->
  (length rs <= 3)%nat /\
  forall p, In p rs -> 1 # 10 < fst p /\ fst p < total_x - (1 # 10) /\
                       1 # 10 < snd p /\ snd p < total_y - (1 # 10).
Proof.
  unfold walras_price. intro Hg.
  set (cands := sort_by snd (map (fun x => (x, demand_excess fa fb total_x total_y price_ratio x))
                                 (linspace (1 # 10) (total_x - (1 # 10)) 30))) in Hg.
  assert (Hc : forall c, In c (firstn 3 cands) ->
                 c = (fst c, demand_excess fa fb total_x total_y price_ratio (fst c))).
  { intros c Hc. apply In_firstn_incl, sort_by_In in Hc.
    apply in_map_iff in Hc as (x & <- & _). reflexivity. }
  split.
  - pose proof (gather_map_length _ 1 _ _
                  (fun c rs' Hin Hs =>
                     proj1 (walras_candidate_shape fuel fa fb total_x total_y price_ratio (fst c) rs'
                              ltac:(rewrite <- (Hc c Hin); exact Hs))) Hg) as H.
    pose proof (length_firstn 3 cands). lia.
  - intros p Hp. destruct (gather_map_Some _ _ _ _ Hg Hp) as (c & rs' & Hin & Hs & Hp').
    rewrite (Hc c Hin) in Hs.
    exact (proj2 (walras_candidate_shape _ _ _ _ _ _ _ _ Hs) p Hp').
Qed.

Lemma remove_nearby_length (pts : list (Q * Q)) :
  (length (remove_nearby pts) <= length pts)%nat.
Proof.
  unfold remove_nearby.
  assert (H : forall l acc,
             (length (fold_left (fun filtered p1 =>
                        if existsb (fun p2 => Qltb (dist_sq p1 p2) 1) filtered then filtered
                        else filtered ++ [p1]) l acc) <= length acc + length l)%nat).
  { induction l as [|a l IH]; intro acc; simpl; [lia|].
    specialize (IH (if existsb (fun p2 => Qltb (dist_sq a p2) 1) acc then acc else acc ++ [a])).
    destruct (existsb _ acc); [lia|]. rewrite length_app in IH. simpl in IH. lia. }
  specialize (H pts []). simpl in H. exact H.
Qed.

(** A list whose later points are at distance at least 1 from the earlier
    ones passes the deduplication unchanged. *)
Lemma remove_nearby_separated_id (l : list (Q * Q)) : separated l -> remove_nearby l = l.
Proof.
  intro Hs. unfold remove_nearby.
  assert (H : forall suf pre, separated (pre ++ suf) ->
                fold_left (fun filtered p1 =>
                             if existsb (fun p2 => Qltb (dist_sq p1 p2) 1) filtered then filtered
                             else filtered ++ [p1]) suf pre = pre ++ suf).
  { induction suf as [|a suf IH]; intros pre Hsep; simpl; [rewrite app_nil_r; reflexivity|].
    destruct (existsb (fun p2 => Qltb (dist_sq a p2) 1) pre) eqn:E.
    - exfalso. apply existsb_exists in E as (p2 & Hin & Hlt). apply Qltb_iff in Hlt.
      apply In_nth_error in Hin as (i & Hi).
      assert (Hil : (i < length pre)%nat) by (apply nth_error_Some; rewrite Hi; discriminate).
      assert (Hi' : nth_error (pre ++ a :: suf) i = Some p2)
        by (rewrite nth_error_app1 by exact Hil; exact Hi).
      assert (Ha : nth_error (pre ++ a :: suf) (length pre) = Some a)
        by (rewrite nth_error_app2, Nat.sub_diag by lia; reflexivity).
      pose proof (Hsep i (length pre) p2 a Hil Hi' Ha). lra.
    - rewrite IH; [rewrite <- app_assoc; reflexivity|].
      rewrite <- app_assoc. exact Hsep. }
  exact (H l [] Hs).
Qed.

(** ** The bisection without monotonicity *)

(** Whatever [f], the bisection returns the lower end [y] of a bracket
    [[y, h]] of [[0.1, max_y]] of width at most [1e-6], with [f(xi, y) < u]
    unless [y = 0.1] and [u <= f(xi, h)] unless [h = max_y]. *)
Lemma bisect_bracket f max_y xi u :
  1 # 10 <= max_y ->
  1 # 10 <= bisect f max_y xi u /\ bisect f max_y xi u <= max_y /\
  (bisect f max_y xi u = 1 # 10 \/ f xi (bisect f max_y xi u) < u) /\
  exists h, bisect f max_y xi u <= h /\ h <= max_y /\ h - bisect f max_y xi u <= 1 # 1000000 /\
    (h = max_y \/ u <= f xi h).
Proof.
  intro Hmax.
  set (P := fun st : Q * Q =>
              1 # 10 <= fst st /\ fst st <= snd st /\ snd st <= max_y /\
              (fst st = 1 # 10 \/ f xi (fst st) < u) /\ (snd st = max_y \/ u <= f xi (snd st))).
  assert (Hstep : forall st, bisect_guard st = true -> P st -> P (bisect_body f xi u st)).
  { intros [low high] _ (H1 & H2 & H3 & Hl & Hh). cbn [fst snd] in *.
    change (bisect_body f xi u (low, high))
      with (if Qltb (f xi (Qred ((low + high) / 2))) u then (Qred ((low + high) / 2), high)
            else (low, Qred ((low + high) / 2))).
    assert (Hmid : Qred ((low + high) / 2) == (low + high) * (1 # 2))
      by (rewrite Qred_correct; field).
    set (mid := Qred ((low + high) / 2)) in *.
    destruct (Qltb (f xi mid) u) eqn:E; unfold P; cbn [fst snd].
    - apply Qltb_iff in E. split; [lra|split; [lra|split; [lra|split; [right; exact E|exact Hh]]]].
    - apply Qltb_false in E. split; [lra|split; [lra|split; [lra|split; [exact Hl|right; exact E]]]]. }
  destruct (bisect_runs f xi u (bisect_fuel max_y) (1 # 10) max_y (bisect_fuel_enough max_y))
    as [[low high] Hrun].
  assert (H0 : P (1 # 10, max_y))
    by (unfold P; cbn [fst snd]; repeat split; [lra|exact Hmax|lra|left; reflexivity|left; reflexivity]).
  destruct (while_loop_inv bisect_guard (bisect_body f xi u) P Hstep
              (bisect_fuel max_y) (1 # 10, max_y) (low, high) H0 Hrun)
    as [(H1 & H2 & H3 & Hl & Hh) Hg].
  cbn [fst snd] in *.
  unfold bisect_guard in Hg. apply Qltb_false in Hg.
  assert (Hb : bisect f max_y xi u = low) by (unfold bisect; rewrite Hrun; reflexivity).
  rewrite Hb. split; [exact H1|split; [lra|split; [exact Hl|]]].
  exists high. split; [exact H2|split; [exact H3|split; [lra|exact Hh]]].
Qed.

Lemma indifference_curves_entry f max_x max_y num_curves k i u xi yi xs ys :
  nth_error (u_levels f max_x max_y num_curves) k = Some u ->
  nth_error (calculate_indifference_curves f max_x max_y num_curves) k = Some (xs, ys) ->
  nth_error xs i = Some xi -> nth_error ys i = Some yi ->
  yi = bisect f max_y xi u.
Proof.
  intros Hu Hc Hx Hy.
  unfold calculate_indifference_curves in Hc. cbv zeta in Hc.
  remember (linspace (1 # 10) max_x 100) as x eqn:Ex.
  rewrite nth_error_map, Hu in Hc.
  cbv beta iota delta [option_map] in Hc. injection Hc as <- <-.
  rewrite nth_error_map, Hx in Hy. cbv beta iota delta [option_map] in Hy. injection Hy as <-.
  reflexivity.
Qed.

(** ** The candidate sort *)

Lemma flt_ltb_asym (a b : flt) : flt_ltb a b = true -> flt_ltb b a = false.
Proof.
  intro H. destruct (flt_ltb b a) eqn:E; [|reflexivity].
  pose proof (flt_ltb_trans _ _ _ H E) as C. rewrite flt_ltb_irrefl in C. discriminate.
Qed.

Lemma insert_by_perm {A : Type} (key : A -> flt) (a : A) (l : list A) :
  Permutation (a :: l) (insert_by key a l).
Proof.
  induction l as [|b l IH]; simpl; [reflexivity|].
  destruct (flt_ltb (key a) (key b)); [reflexivity|].
  transitivity (b :: a :: l); [apply perm_swap|]. apply perm_skip. exact IH.
Qed.

Lemma insert_by_sorted {A : Type} (key : A -> flt) (a : A) (l : list A) :
  StronglySorted (fun x y => flt_ltb (key y) (key x) = false) l ->
  StronglySorted (fun x y => flt_ltb (key y) (key x) = false) (insert_by key a l).
Proof.
  induction l as [|b l IH]; intro Hs; simpl.
  - repeat constructor.
  - apply StronglySorted_inv in Hs as [Hs Hf].
    destruct (flt_ltb (key a) (key b)) eqn:E.
    + constructor; [constructor; assumption|].
      constructor; [apply flt_ltb_asym; exact E|].
      eapply Forall_impl; [|exact Hf]. intros c Hc. cbv beta in Hc |- *.
      destruct (flt_ltb (key c) (key a)) eqn:C; [|reflexivity].
      rewrite (flt_ltb_trans _ _ _ C E) in Hc. discriminate.
    + constructor; [apply IH; exact Hs|].
      apply Forall_forall. intros c Hc. apply insert_by_In in Hc as [->|Hc]; [exact E|].
      rewrite Forall_forall in Hf. exact (Hf c Hc).
Qed.

(** * The claims *)

(** C4: for every utility function [f], point [(x, y)] and positive
    [eps], [calculate_mrs f x y eps] returns [-(dx/dy)] (the value of the
    expression [-dx/dy] of the source) when the forward difference [dy]
    is not zero, and [+inf] when [dy] is zero. *)
Theorem calculate_mrs_forward_difference (f : Q -> Q -> Q) (x y eps : Q) :
  0 < eps ->
  let dx := (f (x + eps) y - f x y) / eps in
  let dy := (f x (y + eps) - f x y) / eps in
  (~ dy == 0 -> calculate_mrs f x y eps = Fin ((- dx) / dy) /\ (- dx) / dy == - (dx / dy)) /\
  (dy == 0 -> calculate_mrs f x y eps = PInf).
Proof.
  intros _ dx dy. unfold calculate_mrs. fold dx dy. split; intro H.
  - destruct (Qeq_bool dy 0) eqn:E.
    + apply Qeq_bool_iff in E. contradiction.
    + split; [reflexivity|]. unfold Qdiv. ring.
  - apply Qeq_bool_iff in H. rewrite H. reflexivity.
Qed.

Lemma calculate_mrs_forward_difference_witness :
  0 < epsilon_default /\
  calculate_mrs util_xy 2 3 epsilon_default
  = Fin ((- ((util_xy (2 + epsilon_default) 3 - util_xy 2 3) / epsilon_default))
         / ((util_xy 2 (3 + epsilon_default) - util_xy 2 3) / epsilon_default)).
Proof.
  split; [reflexivity|].
  apply (calculate_mrs_forward_difference util_xy 2 3 epsilon_default); [reflexivity|].
  vm_compute. discriminate.
Defined.

(** C3 (counterexample): [calculate_mrs] of [x*y] at [(1, 1)] is not within
    [O(eps)] of [1.0]: no constant [C] bounds [|mrs - 1|] by [C * eps]. *)
Lemma mrs_util_xy_not_one :
  ~ (exists C : Q, forall eps q, 0 < eps ->
       calculate_mrs util_xy 1 1 eps = Fin q -> Qabs (q - 1) <= C * eps).
Proof.
  intros [C H].
  assert (Hbound : forall eps, 0 < eps -> 2 <= C * eps).
  { intros eps He.
    destruct (mrs_util_xy_diag 1 eps) as (q & Hq & Hq1);
      [discriminate| intro E; rewrite E in He; discriminate |].
    specialize (H eps q He Hq). rewrite Hq1 in H. exact H. }
  destruct (Qlt_le_dec 0 C) as [HC|HC].
  - specialize (Hbound (/ C) (Qinv_lt_0_compat C HC)).
    rewrite Qmult_inv_r in Hbound by (intro E; rewrite E in HC; discriminate).
    lra.
  - specialize (Hbound 1 eq_refl). lra.
Qed.

(** C3 (as the code computes it): for [f(x, y) = x*y], every [a > 0] and
    every [eps > 0], [calculate_mrs f a a eps] is exactly [-1]: the
    source returns [-dx/dy], the negative ratio of the partial
    differences, which are both [a]. *)
Theorem mrs_util_xy_diag_minus_one (a eps : Q) :
  0 < a -> 0 < eps ->
  exists q, calculate_mrs util_xy a a eps = Fin q /\ q == -1.
Proof.
  intros Ha He. apply mrs_util_xy_diag.
  - intro E. rewrite E in Ha. discriminate.
  - intro E. rewrite E in He. discriminate.
Qed.

Lemma mrs_util_xy_diag_minus_one_witness :
  exists q, calculate_mrs util_xy 3 3 epsilon_default = Fin q /\ q == -1.
Proof.
  apply (mrs_util_xy_diag_minus_one 3 epsilon_default); reflexivity.
Defined.

(** C9: [calculate_offer_curves] does not depend on its four endowment
    arguments. *)
Theorem offer_curves_endowment_independent (fuel : nat) (fa fb : Q -> Q -> Q)
    (total_x total_y a1 a2 a3 a4 b1 b2 b3 b4 : Q) (num_points : nat) :
  calculate_offer_curves fuel fa fb total_x total_y a1 a2 a3 a4 num_points
  = calculate_offer_curves fuel fa fb total_x total_y b1 b2 b3 b4 num_points.
Proof. reflexivity. Qed.

(** A run of the slice loop: [f_a = f_b = x*y], [total_x = total_y = 1],
    six slices, all accepted. *)
Lemma offer_xy_six_run :
  offer_accepted 1000 util_xy util_xy 1 1 6
  = Some [(250000 # 5000000, 2450000 # 49000000); (1150000 # 5000000, 7385929 # 32112640);
          (2050000 # 5000000, 13166177 # 32112640); (2950000 # 5000000, 18946463 # 32112640);
          (3850000 # 5000000, 24726711 # 32112640); (4750000 # 5000000, 46550000 # 49000000)].
Proof. vm_compute. reflexivity. Qed.

Lemma offer_curves_xy_six_gaps :
  offer_gaps_within util_xy util_xy 1 1 (1 # 10)
    (calculate_offer_curves 1000 util_xy util_xy 1 1 0 0 0 0 6) = false.
Proof. unfold calculate_offer_curves. rewrite offer_xy_six_run. vm_compute. reflexivity. Qed.

(** C1 (counterexample): with [f_a = f_b = x*y], [total_x = total_y = 1]
    and [num_points = 6], all six slices are accepted, and the smoothed
    output contains the point [(0.77, 0.41)], where the MRS gap is about
    [2.03 > 0.1]. *)
Lemma offer_curves_smoothed_gap_exceeds :
  ~ (forall xs ys,
       calculate_offer_curves 1000 util_xy util_xy 1 1 0 0 0 0 6 = Some (xs, ys) ->
       forall x y, In (x, y) (combine xs ys) ->
         flt_leb (mrs_gap util_xy util_xy 1 1 x y) (Fin (1 # 10)) = true).
Proof.
  intro H.
  assert (Hall : offer_gaps_within util_xy util_xy 1 1 (1 # 10)
                   (calculate_offer_curves 1000 util_xy util_xy 1 1 0 0 0 0 6) = true).
  { unfold offer_gaps_within.
    destruct (calculate_offer_curves 1000 util_xy util_xy 1 1 0 0 0 0 6) as [[xs ys]|] eqn:E;
      [|reflexivity].
    apply forallb_forall. intros [x y] Hin. exact (H xs ys eq_refl x y Hin). }
  rewrite offer_curves_xy_six_gaps in Hall. discriminate.
Qed.

(** C1 (as the code does it): every point accepted by the slice loop of
    [calculate_offer_curves] has an MRS gap below [0.1], and the function
    returns exactly these points when at most five are accepted (beyond
    five, it returns smoothed points, see C8, which need not satisfy the
    bound). *)
Theorem offer_accepted_points_gap (fuel : nat) (fa fb : Q -> Q -> Q)
    (total_x total_y ea1 ea2 eb1 eb2 : Q) (num_points : nat) pts :
  offer_accepted fuel fa fb total_x total_y num_points = Some pts ->
  (forall p, In p pts ->
     flt_ltb (mrs_gap fa fb total_x total_y (fst p) (snd p)) (Fin (1 # 10)) = true) /\
  ((length pts <= 5)%nat ->
     calculate_offer_curves fuel fa fb total_x total_y ea1 ea2 eb1 eb2 num_points
     = Some (map fst pts, map snd pts)).
Proof.
  intro Hacc. split.
  - intros p Hp. unfold offer_accepted in Hacc.
    destruct (gather_map_Some _ _ _ _ Hacc Hp) as (t & rs & _ & Hs & Hin).
    exact (offer_slice_gap _ _ _ _ _ _ _ _ Hs Hin).
  - intro Hle. unfold calculate_offer_curves. rewrite Hacc.
    destruct (smooth_spec (map fst pts) (map snd pts)) as [H _];
      [rewrite !length_map; reflexivity|].
    rewrite H by (rewrite length_map; exact Hle). reflexivity.
Qed.

Lemma offer_accepted_points_gap_witness :
  exists pts, offer_accepted 1000 util_xy util_xy 1 1 6 = Some pts /\
    (forall p, In p pts ->
       flt_ltb (mrs_gap util_xy util_xy 1 1 (fst p) (snd p)) (Fin (1 # 10)) = true) /\
    ((length pts <= 5)%nat ->
       calculate_offer_curves 1000 util_xy util_xy 1 1 (1 # 2) (1 # 4) (1 # 2) (3 # 4) 6
       = Some (map fst pts, map snd pts)).
Proof.
  eexists. split; [exact offer_xy_six_run|].
  apply offer_accepted_points_gap. exact offer_xy_six_run.
Defined.

(** A run of the slice loop: [f_a = f_b = x + y], [total_x = total_y = 1],
    five slices, all accepted. *)
Lemma offer_sum_five_run :
  offer_accepted 100 util_sum util_sum 1 1 5
  = Some [(200000 # 4000000, 2450000 # 49000000); (1100000 # 4000000, 2450000 # 49000000);
          (2000000 # 4000000, 2450000 # 49000000); (2900000 # 4000000, 2450000 # 49000000);
          (3800000 # 4000000, 2450000 # 49000000)].
Proof. vm_compute. reflexivity. Qed.

(** C8 (counterexample): with [f_a = f_b = x + y], [total_x = total_y = 1]
    and [num_points = 5], all five slices are accepted (five is not fewer
    than the window), yet the output is not the window-5 moving average of
    the accepted y-values: [len(x_points) > 5] fails, so the raw lists are
    returned. *)
Lemma offer_curves_five_points_unsmoothed :
  ~ (forall pts, offer_accepted 100 util_sum util_sum 1 1 5 = Some pts ->
       (5 <= length pts)%nat ->
       exists xs ys, calculate_offer_curves 100 util_sum util_sum 1 1 0 0 0 0 5 = Some (xs, ys) /\
         Forall2 Qeq ys (spec_moving_average 5 (map snd pts))).
Proof.
  intro H.
  assert (H5 : (5 <= 5)%nat) by lia.
  destruct (H _ offer_sum_five_run H5) as (xs & ys & Hc & Hf).
  assert (H5' : (5 <= 5)%nat) by lia.
  pose proof (calculate_offer_curves_raw 100 util_sum util_sum 1 1 0 0 0 0 5 _
                offer_sum_five_run H5') as R.
  pose proof (eq_trans (eq_sym R) Hc) as E.
  injection E as _ <-.
  apply Forall2_length in Hf. unfold spec_moving_average in Hf.
  rewrite ?length_map, ?length_seq in Hf. discriminate Hf.
Qed.

(** C8 (as the code does it): the accepted points are returned raw when at
    most five are accepted; when more than five are accepted, the y-values
    are the window-5 moving averages of the accepted y-values and the
    x-values are the accepted x-values without the first four, both lists
    having the same length. *)
Theorem offer_curves_smoothing (fuel : nat) (fa fb : Q -> Q -> Q)
    (total_x total_y ea1 ea2 eb1 eb2 : Q) (num_points : nat) pts :
  offer_accepted fuel fa fb total_x total_y num_points = Some pts ->
  exists xs ys,
    calculate_offer_curves fuel fa fb total_x total_y ea1 ea2 eb1 eb2 num_points = Some (xs, ys) /\
    ((length pts <= 5)%nat -> xs = map fst pts /\ ys = map snd pts) /\
    ((5 < length pts)%nat ->
       xs = skipn 4 (map fst pts) /\ length ys = length xs /\
       Forall2 Qeq ys (spec_moving_average 5 (map snd pts))).
Proof.
  intro Hacc.
  exists (fst (smooth (map fst pts) (map snd pts))), (snd (smooth (map fst pts) (map snd pts))).
  unfold calculate_offer_curves. rewrite Hacc.
  destruct (smooth_spec (map fst pts) (map snd pts)) as [Hraw Hsm];
    [rewrite !length_map; reflexivity|].
  rewrite length_map in Hraw, Hsm.
  split; [destruct (smooth _ _); reflexivity|]. split.
  - intro Hle. rewrite (Hraw Hle). split; reflexivity.
  - intro Hlt. exact (Hsm Hlt).
Qed.

Lemma offer_curves_smoothing_witness :
  exists pts, offer_accepted 1000 util_xy util_xy 1 1 6 = Some pts /\
  exists xs ys,
    calculate_offer_curves 1000 util_xy util_xy 1 1 0 0 0 0 6 = Some (xs, ys) /\
    ((length pts <= 5)%nat -> xs = map fst pts /\ ys = map snd pts) /\
    ((5 < length pts)%nat ->
       xs = skipn 4 (map fst pts) /\ length ys = length xs /\
       Forall2 Qeq ys (spec_moving_average 5 (map snd pts))).
Proof.
  eexists. split; [exact offer_xy_six_run|].
  apply offer_curves_smoothing. exact offer_xy_six_run.
Defined.

(** A run of the equilibrium solver: [f_a = f_b = x - y] (MRS 1
    everywhere), [total_x = 100], [total_y = 0.21], three price ratios. *)
Lemma walras_diff_run :
  find_walrasian_equilibrium 1000 qexp_series util_diff util_diff 100 (21 # 100) 3
  = Some [(102700 # 29000, 506100 # 4900000); (202500 # 29000, 506100 # 4900000);
          (302300 # 29000, 506100 # 4900000)].
Proof. vm_compute. reflexivity. Qed.

(** C2: every point [(x, y)] returned by [find_walrasian_equilibrium] comes
    with a price ratio [p] of the grid [exp(linspace(-5, 5, num_prices))]
    such that [|MRS_A(x, y) - p| < 1] and
    [|MRS_B(total_x - x, total_y - y) - p| < 1]. *)
Theorem walras_points_within_tolerance (fuel : nat) (qexp : Q -> Q) (fa fb : Q -> Q -> Q)
    (total_x total_y : Q) (num_prices : nat) pts x y :
  find_walrasian_equilibrium fuel qexp fa fb total_x total_y num_prices = Some pts ->
  In (x, y) pts ->
  exists p, In p (price_ratios qexp num_prices) /\
    flt_ltb (flt_abs (flt_sub (mrs fa x y) (Fin p))) (Fin 1) = true /\
    flt_ltb (flt_abs (flt_sub (mrs fb (total_x - x) (total_y - y)) (Fin p))) (Fin 1) = true.
Proof.
  unfold find_walrasian_equilibrium.
  destruct (equilibrium_points fuel qexp fa fb total_x total_y num_prices) as [l|] eqn:E;
    intro H; [|discriminate].
  injection H as <-. intro Hin. apply remove_nearby_incl in Hin.
  destruct (equilibrium_points_accepted _ _ _ _ _ _ _ _ _ E Hin) as (pr & Hpr & Hex).
  exists pr. split; [exact Hpr|].
  unfold excess in Hex. cbn [fst snd] in Hex.
  exact (flt_sum_abs_lt _ _ _ Hex).
Qed.

Lemma walras_points_within_tolerance_witness :
  exists p, In p (price_ratios qexp_series 3) /\
    flt_ltb (flt_abs (flt_sub (mrs util_diff (102700 # 29000) (506100 # 4900000)) (Fin p))) (Fin 1)
      = true /\
    flt_ltb (flt_abs (flt_sub (mrs util_diff (100 - (102700 # 29000))
                                              ((21 # 100) - (506100 # 4900000)))
                              (Fin p))) (Fin 1) = true.
Proof.
  apply (walras_points_within_tolerance 1000 qexp_series util_diff util_diff 100 (21 # 100) 3
           _ _ _ walras_diff_run).
  left. reflexivity.
Defined.

(** C6: any two entries at different positions of the list returned by
    [find_walrasian_equilibrium] are at Euclidean distance at least 1, i.e.
    their squared distance is at least 1. *)
Theorem walras_points_separated (fuel : nat) (qexp : Q -> Q) (fa fb : Q -> Q -> Q)
    (total_x total_y : Q) (num_prices : nat) pts i j p q :
  find_walrasian_equilibrium fuel qexp fa fb total_x total_y num_prices = Some pts ->
  i <> j -> nth_error pts i = Some p -> nth_error pts j = Some q ->
  1 <= dist_sq p q.
Proof.
  unfold find_walrasian_equilibrium.
  destruct (equilibrium_points fuel qexp fa fb total_x total_y num_prices) as [l|];
    intro H; [|discriminate].
  injection H as <-. intros Hij Hi Hj.
  apply Nat.lt_gt_cases in Hij as [Hlt|Hgt].
  - pose proof (remove_nearby_separated l i j p q Hlt Hi Hj).
    pose proof (dist_sq_sym p q). lra.
  - exact (remove_nearby_separated l j i q p Hgt Hj Hi).
Qed.

Lemma walras_points_separated_witness :
  1 <= dist_sq (102700 # 29000, 506100 # 4900000) (202500 # 29000, 506100 # 4900000).
Proof.
  apply (walras_points_separated 1000 qexp_series util_diff util_diff 100 (21 # 100) 3
           [(102700 # 29000, 506100 # 4900000); (202500 # 29000, 506100 # 4900000);
            (302300 # 29000, 506100 # 4900000)] 0 1);
    [exact walras_diff_run | discriminate | reflexivity | reflexivity].
Defined.

(** C5: if [f(x_i, .)] is non-decreasing on [[0.1, max_y]] and the level
    [u] of a curve is attained there, every sample [(x_i, y_i)] of that curve
    returned by [calculate_indifference_curves] lies within [1e-6] of a
    solution [r] in [[0.1, max_y]] of [f(x_i, r) = u]. *)
Theorem indifference_curves_bisection_accurate (f : Q -> Q -> Q) (max_x max_y : Q)
    (num_curves k i : nat) (u xi yi : Q) (xs ys : list Q) :
  nth_error (u_levels f max_x max_y num_curves) k = Some u ->
  nth_error (calculate_indifference_curves f max_x max_y num_curves) k = Some (xs, ys) ->
  nth_error xs i = Some xi -> nth_error ys i = Some yi ->
  (forall a b, 1 # 10 <= a -> a <= b -> b <= max_y -> f xi a <= f xi b) ->
  (exists r, 1 # 10 <= r /\ r <= max_y /\ f xi r == u) ->
  exists r, 1 # 10 <= r /\ r <= max_y /\ f xi r == u /\ Qabs (yi - r) <= 1 # 1000000.
Proof.
  intros Hu Hc Hx Hy Hmono Hex.
  unfold calculate_indifference_curves in Hc. cbv zeta in Hc.
  remember (linspace (1 # 10) max_x 100) as x eqn:Ex.
  rewrite nth_error_map, Hu in Hc.
  cbv beta iota delta [option_map] in Hc. injection Hc as <- <-.
  rewrite nth_error_map, Hx in Hy. cbv beta iota delta [option_map] in Hy. injection Hy as <-.
  exact (bisect_accurate f max_y xi u Hmono Hex).
Qed.

Lemma indifference_curves_bisection_accurate_witness :
  exists r, 1 # 10 <= r /\ r <= 1 /\
    util_sum (nth 0 (linspace (1 # 10) 1 100) 0) r == util_sum (1 / 4) (1 / 4) /\
    Qabs (bisect util_sum 1 (nth 0 (linspace (1 # 10) 1 100) 0) (util_sum (1 / 4) (1 / 4)) - r)
      <= 1 # 1000000.
Proof.
  apply (indifference_curves_bisection_accurate util_sum 1 1 1 0 0 (util_sum (1 / 4) (1 / 4))
           (nth 0 (linspace (1 # 10) 1 100) 0)
           (bisect util_sum 1 (nth 0 (linspace (1 # 10) 1 100) 0) (util_sum (1 / 4) (1 / 4)))
           (linspace (1 # 10) 1 100)
           (map (fun xi => bisect util_sum 1 xi (util_sum (1 / 4) (1 / 4))) (linspace (1 # 10) 1 100))).
  - reflexivity.
  - reflexivity.
  - reflexivity.
  - reflexivity.
  - intros a b _ Hab _. unfold util_sum. lra.
  - exists (2 # 5). split; [vm_compute; discriminate|]. split; [vm_compute; discriminate|].
    vm_compute. reflexivity.
Defined.

(** C10: for every objective, the step-halving loop of
    [find_walrasian_equilibrium] (started at any [x_init] with [step = 0.1])
    and the [dy]-loop of [calculate_offer_curves] (started at any [best_y]
    with [dy = 0.1 * total_y]) stop after finitely many iterations, with
    [step <= 1e-4], respectively [dy <= 1e-6 * total_y]. *)
Theorem local_search_loops_terminate :
  (forall (de : Q -> flt) (total_x x_init : Q), exists fuel st,
     while_loop walras_guard (walras_body de total_x) fuel (x_init, 1 # 10) = Some st /\
     snd st <= 1 # 10000) /\
  (forall (gap : Q -> flt) (total_y y0 : Q) (bd0 : flt), exists fuel st,
     while_loop (offer_guard total_y) (offer_body gap total_y) fuel
       (mk_offer_state ((1 # 10) * total_y) y0 bd0) = Some st /\
     dy st <= (1 # 1000000) * total_y).
Proof.
  split.
  - intros de total_x x_init.
    destruct (walras_loop_terminates de total_x x_init) as (n & st & H).
    exists n, st. split; [exact H|].
    destruct (while_loop_inv _ _ (fun _ => True) (fun _ _ _ => I) _ _ _ I H) as [_ G].
    unfold walras_guard in G. apply Qltb_false in G. exact G.
  - intros gap total_y y0 bd0.
    destruct (offer_loop_terminates gap total_y y0 bd0) as (n & st & H).
    exists n, st. split; [exact H|].
    destruct (while_loop_inv _ _ (fun _ => True) (fun _ _ _ => I) _ _ _ I H) as [_ G].
    unfold offer_guard in G. apply Qltb_false in G. exact G.
Qed.



(** * Further properties of the code *)

(** X4: [calculate_indifference_curves] returns [num_curves] curves; each
    is sampled at the same 100 x-values [linspace(0.1, max_x, 100)] and
    has 100 y-values. *)
Theorem indifference_curves_shape (f : Q -> Q -> Q) (max_x max_y : Q) (num_curves : nat) :
  length (calculate_indifference_curves f max_x max_y num_curves) = num_curves /\
  forall xs ys, In (xs, ys) (calculate_indifference_curves f max_x max_y num_curves) ->
    xs = linspace (1 # 10) max_x 100 /\ length ys = 100%nat.
Proof.
  unfold calculate_indifference_curves, u_levels. cbv zeta.
  assert (Hl : length (linspace (1 # 10) max_x 100) = 100%nat) by apply linspace_length.
  remember (linspace (1 # 10) max_x 100) as x eqn:Ex. split.
  - rewrite length_map. apply linspace_length.
  - intros xs ys Hin. apply in_map_iff in Hin as (u & Hu & _). injection Hu as <- <-.
    split; [reflexivity|]. rewrite length_map. exact Hl.
Qed.

(** X5: when [max_y >= 0.1], every y-value of every curve returned by
    [calculate_indifference_curves] lies in [[0.1, max_y]], whatever the
    utility function. *)
Theorem indifference_curves_y_bounds (f : Q -> Q -> Q) (max_x max_y : Q) (num_curves : nat)
    (xs ys : list Q) (y : Q) :
  1 # 10 <= max_y ->
  In (xs, ys) (calculate_indifference_curves f max_x max_y num_curves) -> In y ys ->
  1 # 10 <= y /\ y <= max_y.
Proof.
  intros Hmax Hc Hy. unfold calculate_indifference_curves in Hc. cbv zeta in Hc.
  remember (linspace (1 # 10) max_x 100) as x eqn:Ex.
  apply in_map_iff in Hc as (u & Hu & _). injection Hu as <- <-.
  apply in_map_iff in Hy as (xi & <- & _).
  destruct (bisect_bracket f max_y xi u Hmax) as (H1 & H2 & _). split; assumption.
Qed.

Lemma indifference_curves_y_bounds_witness :
  1 # 10 <= bisect util_sum 1 (nth 0 (linspace (1 # 10) 1 100) 0) (util_sum (1 / 4) (1 / 4)) /\
  bisect util_sum 1 (nth 0 (linspace (1 # 10) 1 100) 0) (util_sum (1 / 4) (1 / 4)) <= 1.
Proof.
  apply (indifference_curves_y_bounds util_sum 1 1 1 (linspace (1 # 10) 1 100)
           (map (fun xi => bisect util_sum 1 xi (util_sum (1 / 4) (1 / 4))) (linspace (1 # 10) 1 100))).
  - vm_compute. discriminate.
  - left. reflexivity.
  - left. reflexivity.
Defined.

(** X6: whatever the utility function (monotone or not), when
    [max_y >= 0.1] each y-value [y_i] of the curve of level [u] is the
    lower end of a bracket [[y_i, h]] of [[0.1, max_y]] of width at most
    [1e-6] such that [f(x_i, y_i) < u] unless [y_i = 0.1], and
    [f(x_i, h) >= u] unless [h = max_y]. *)
Theorem indifference_curves_bracket (f : Q -> Q -> Q) (max_x max_y : Q)
    (num_curves k i : nat) (u xi yi : Q) (xs ys : list Q) :
  1 # 10 <= max_y ->
  nth_error (u_levels f max_x max_y num_curves) k = Some u ->
  nth_error (calculate_indifference_curves f max_x max_y num_curves) k = Some (xs, ys) ->
  nth_error xs i = Some xi -> nth_error ys i = Some yi ->
  (yi = 1 # 10 \/ f xi yi < u) /\
  exists h, yi <= h /\ h <= max_y /\ h - yi <= 1 # 1000000 /\ (h = max_y \/ u <= f xi h).
Proof.
  intros Hmax Hu Hc Hx Hy.
  rewrite (indifference_curves_entry _ _ _ _ _ _ _ _ _ _ _ Hu Hc Hx Hy).
  destruct (bisect_bracket f max_y xi u Hmax) as (_ & _ & Hl & Hh). split; assumption.
Qed.

Lemma indifference_curves_bracket_witness :
  (bisect util_sum 1 (nth 0 (linspace (1 # 10) 1 100) 0) (util_sum (1 / 4) (1 / 4)) = 1 # 10 \/
   util_sum (nth 0 (linspace (1 # 10) 1 100) 0)
     (bisect util_sum 1 (nth 0 (linspace (1 # 10) 1 100) 0) (util_sum (1 / 4) (1 / 4)))
   < util_sum (1 / 4) (1 / 4)) /\
  exists h, bisect util_sum 1 (nth 0 (linspace (1 # 10) 1 100) 0) (util_sum (1 / 4) (1 / 4)) <= h /\
    h <= 1 /\
    h - bisect util_sum 1 (nth 0 (linspace (1 # 10) 1 100) 0) (util_sum (1 / 4) (1 / 4))
      <= 1 # 1000000 /\
    (h = 1 \/ util_sum (1 / 4) (1 / 4) <= util_sum (nth 0 (linspace (1 # 10) 1 100) 0) h).
Proof.
  apply (indifference_curves_bracket util_sum 1 1 1 0 0 (util_sum (1 / 4) (1 / 4))
           (nth 0 (linspace (1 # 10) 1 100) 0)
           (bisect util_sum 1 (nth 0 (linspace (1 # 10) 1 100) 0) (util_sum (1 / 4) (1 / 4)))
           (linspace (1 # 10) 1 100)
           (map (fun xi => bisect util_sum 1 xi (util_sum (1 / 4) (1 / 4))) (linspace (1 # 10) 1 100))).
  - vm_compute. discriminate.
  - reflexivity.
  - reflexivity.
  - reflexivity.
  - reflexivity.
Defined.

(** X7: a level outside the range of [f(x_i, .)] on [[0.1, max_y]] is
    silently clamped: if [f(x_i, y) >= u] on the whole interval, the curve
    of level [u] has [y_i = 0.1]; if [f(x_i, y) < u] on the whole interval,
    [y_i >= max_y - 1e-6]. *)
Theorem indifference_curves_clamped (f : Q -> Q -> Q) (max_x max_y : Q)
    (num_curves k i : nat) (u xi yi : Q) (xs ys : list Q) :
  1 # 10 <= max_y ->
  nth_error (u_levels f max_x max_y num_curves) k = Some u ->
  nth_error (calculate_indifference_curves f max_x max_y num_curves) k = Some (xs, ys) ->
  nth_error xs i = Some xi -> nth_error ys i = Some yi ->
  ((forall y, 1 # 10 <= y -> y <= max_y -> u <= f xi y) -> yi = 1 # 10) /\
  ((forall y, 1 # 10 <= y -> y <= max_y -> f xi y < u) -> max_y - (1 # 1000000) <= yi).
Proof.
  intros Hmax Hu Hc Hx Hy.
  rewrite (indifference_curves_entry _ _ _ _ _ _ _ _ _ _ _ Hu Hc Hx Hy).
  destruct (bisect_bracket f max_y xi u Hmax) as (H1 & H2 & Hl & h & Hh1 & Hh2 & Hw & Hh).
  split; intro Hall.
  - destruct Hl as [Hl|Hl]; [exact Hl|].
    pose proof (Hall _ H1 H2). lra.
  - destruct Hh as [Hh|Hh]; [subst h; lra|].
    pose proof (Hall h ltac:(lra) Hh2). lra.
Qed.

Lemma indifference_curves_clamped_witness :
  bisect util_sum 1 (nth 99 (linspace (1 # 10) 1 100) 0) (nth 0 (u_levels util_sum 1 1 2) 0)
  = 1 # 10 /\
  1 - (1 # 1000000)
  <= bisect util_sum 1 (nth 0 (linspace (1 # 10) 1 100) 0) (nth 1 (u_levels util_sum 1 1 2) 0).
Proof.
  assert (Hx0 : nth 0 (linspace (1 # 10) 1 100) 0 == 1 # 10) by (vm_compute; reflexivity).
  assert (Hx99 : nth 99 (linspace (1 # 10) 1 100) 0 == 1) by (vm_compute; reflexivity).
  assert (Hu0 : nth 0 (u_levels util_sum 1 1 2) 0 == 1 # 2) by (vm_compute; reflexivity).
  assert (Hu1 : nth 1 (u_levels util_sum 1 1 2) 0 == 3 # 2) by (vm_compute; reflexivity).
  split.
  - apply (proj1 (indifference_curves_clamped util_sum 1 1 2 0 99
             (nth 0 (u_levels util_sum 1 1 2) 0) (nth 99 (linspace (1 # 10) 1 100) 0)
             (bisect util_sum 1 (nth 99 (linspace (1 # 10) 1 100) 0)
                     (nth 0 (u_levels util_sum 1 1 2) 0))
             (linspace (1 # 10) 1 100)
             (map (fun xi => bisect util_sum 1 xi (nth 0 (u_levels util_sum 1 1 2) 0))
                  (linspace (1 # 10) 1 100))
             ltac:(vm_compute; discriminate) eq_refl eq_refl eq_refl eq_refl)).
    intros y H1 H2. unfold util_sum. rewrite Hu0, Hx99. lra.
  - apply (proj2 (indifference_curves_clamped util_sum 1 1 2 1 0
             (nth 1 (u_levels util_sum 1 1 2) 0) (nth 0 (linspace (1 # 10) 1 100) 0)
             (bisect util_sum 1 (nth 0 (linspace (1 # 10) 1 100) 0)
                     (nth 1 (u_levels util_sum 1 1 2) 0))
             (linspace (1 # 10) 1 100)
             (map (fun xi => bisect util_sum 1 xi (nth 1 (u_levels util_sum 1 1 2) 0))
                  (linspace (1 # 10) 1 100))
             ltac:(vm_compute; discriminate) eq_refl eq_refl eq_refl eq_refl)).
    intros y H1 H2. unfold util_sum. rewrite Hu1, Hx0. lra.
Defined.

(** The returned curves of the run of [offer_xy_six_run] (smoothed). *)
Lemma offer_curves_xy_six_run :
  calculate_offer_curves 1000 util_xy util_xy 1 1 0 0 0 0 6
  = Some ([3850000 # 5000000; 4750000 # 5000000],
          [66762716763711118063351889920000000000000
           # 162835894545636873325248512000000000000000;
           96073177781925755261896622080000000000000
           # 162835894545636873325248512000000000000000]).
Proof. unfold calculate_offer_curves. rewrite offer_xy_six_run. vm_compute. reflexivity. Qed.

(** X8: for [total_x >= 0] and [total_y > 0], every x-value returned by
    [calculate_offer_curves] lies in [[0.05 * total_x, 0.95 * total_x]] and
    every y-value strictly inside [(0.01 * total_y, 0.99 * total_y)], with
    or without smoothing. *)
Theorem offer_curves_in_box (fuel : nat) (fa fb : Q -> Q -> Q)
    (total_x total_y ea1 ea2 eb1 eb2 : Q) (num_points : nat) (xs ys : list Q) :
  0 <= total_x -> 0 < total_y ->
  calculate_offer_curves fuel fa fb total_x total_y ea1 ea2 eb1 eb2 num_points = Some (xs, ys) ->
  Forall (fun x => (5 # 100) * total_x <= x /\ x <= (95 # 100) * total_x) xs /\
  Forall (fun y => (1 # 100) * total_y < y /\ y < (99 # 100) * total_y) ys.
Proof.
  intros Hx Hy. unfold calculate_offer_curves.
  destruct (offer_accepted fuel fa fb total_x total_y num_points) as [pts|] eqn:Ha;
    intro H; [|discriminate].
  injection H as H.
  pose proof (offer_accepted_in_box _ _ _ _ _ _ _ Hx Hy Ha) as Hb.
  assert (Fx : Forall (fun x => (5 # 100) * total_x <= x /\ x <= (95 # 100) * total_x) (map fst pts)).
  { apply Forall_map. eapply Forall_impl; [|exact Hb]. intros p (H1 & H2 & _). split; assumption. }
  assert (Fy : Forall (fun y => (1 # 100) * total_y < y /\ y < (99 # 100) * total_y) (map snd pts)).
  { apply Forall_map. eapply Forall_impl; [|exact Hb]. intros p (_ & _ & H1 & H2). split; assumption. }
  destruct (smooth_spec (map fst pts) (map snd pts)) as [Hraw Hsm];
    [rewrite !length_map; reflexivity|].
  destruct (Nat.le_gt_cases (length (map fst pts)) 5) as [Hle|Hgt].
  - rewrite (Hraw Hle) in H. injection H as <- <-. split; assumption.
  - destruct (Hsm Hgt) as (Hxs & _ & Hys). rewrite H in Hxs, Hys. cbn [fst snd] in Hxs, Hys.
    subst xs. split.
    + apply Forall_forall. intros x Hin. rewrite Forall_forall in Fx. apply Fx.
      apply In_skipn_incl with 4%nat. exact Hin.
    + apply (Forall2_Qeq_bounds _ _ _ _ Hys).
      apply spec_moving_average_bounds; [lia| |exact Fy].
      rewrite length_map. rewrite length_map in Hgt. lia.
Qed.

Lemma offer_curves_in_box_witness :
  Forall (fun x => (5 # 100) * 1 <= x /\ x <= (95 # 100) * 1)
         [3850000 # 5000000; 4750000 # 5000000] /\
  Forall (fun y => (1 # 100) * 1 < y /\ y < (99 # 100) * 1)
         [66762716763711118063351889920000000000000
          # 162835894545636873325248512000000000000000;
          96073177781925755261896622080000000000000
          # 162835894545636873325248512000000000000000].
Proof.
  apply (offer_curves_in_box 1000 util_xy util_xy 1 1 0 0 0 0 6); [lra|lra|].
  exact offer_curves_xy_six_run.
Defined.

(** X9: for [total_x > 0], the x-values returned by
    [calculate_offer_curves] are strictly increasing, with or without
    smoothing. *)
Theorem offer_curves_x_increasing (fuel : nat) (fa fb : Q -> Q -> Q)
    (total_x total_y ea1 ea2 eb1 eb2 : Q) (num_points : nat) (xs ys : list Q) :
  0 < total_x ->
  calculate_offer_curves fuel fa fb total_x total_y ea1 ea2 eb1 eb2 num_points = Some (xs, ys) ->
  StronglySorted Qlt xs.
Proof.
  intro Hx. unfold calculate_offer_curves.
  destruct (offer_accepted fuel fa fb total_x total_y num_points) as [pts|] eqn:Ha;
    intro H; [|discriminate].
  injection H as H.
  pose proof (offer_accepted_sorted _ _ _ _ _ _ _ Hx Ha) as Hs.
  destruct (smooth_spec (map fst pts) (map snd pts)) as [Hraw Hsm];
    [rewrite !length_map; reflexivity|].
  destruct (Nat.le_gt_cases (length (map fst pts)) 5) as [Hle|Hgt].
  - rewrite (Hraw Hle) in H. injection H as <- <-. exact Hs.
  - destruct (Hsm Hgt) as (Hxs & _). rewrite H in Hxs. cbn [fst] in Hxs. subst xs.
    apply StronglySorted_skipn. exact Hs.
Qed.

Lemma offer_curves_x_increasing_witness :
  StronglySorted Qlt [3850000 # 5000000; 4750000 # 5000000].
Proof.
  apply (offer_curves_x_increasing 1000 util_xy util_xy 1 1 0 0 0 0 6 _
           [66762716763711118063351889920000000000000
            # 162835894545636873325248512000000000000000;
            96073177781925755261896622080000000000000
            # 162835894545636873325248512000000000000000]); [lra|].
  exact offer_curves_xy_six_run.
Defined.

(** X10: the two arrays returned by [calculate_offer_curves] have the
    same length, at most [num_points]. *)
Theorem offer_curves_length (fuel : nat) (fa fb : Q -> Q -> Q)
    (total_x total_y ea1 ea2 eb1 eb2 : Q) (num_points : nat) (xs ys : list Q) :
  calculate_offer_curves fuel fa fb total_x total_y ea1 ea2 eb1 eb2 num_points = Some (xs, ys) ->
  length xs = length ys /\ (length xs <= num_points)%nat.
Proof.
  unfold calculate_offer_curves.
  destruct (offer_accepted fuel fa fb total_x total_y num_points) as [pts|] eqn:Ha;
    intro H; [|discriminate].
  injection H as H.
  pose proof (offer_accepted_length _ _ _ _ _ _ _ Ha) as Hl.
  destruct (smooth_spec (map fst pts) (map snd pts)) as [Hraw Hsm];
    [rewrite !length_map; reflexivity|].
  destruct (Nat.le_gt_cases (length (map fst pts)) 5) as [Hle|Hgt].
  - rewrite (Hraw Hle) in H. injection H as <- <-. rewrite !length_map. split; [reflexivity|exact Hl].
  - destruct (Hsm Hgt) as (Hxs & Hlen & _). rewrite H in Hxs, Hlen. cbn [fst snd] in Hxs, Hlen.
    split; [symmetry; exact Hlen|]. subst xs. rewrite length_skipn, length_map. lia.
Qed.

Lemma offer_curves_length_witness :
  length [3850000 # 5000000; 4750000 # 5000000]
  = length [66762716763711118063351889920000000000000
            # 162835894545636873325248512000000000000000;
            96073177781925755261896622080000000000000
            # 162835894545636873325248512000000000000000] /\
  (length [3850000 # 5000000; 4750000 # 5000000] <= 6)%nat.
Proof.
  apply (offer_curves_length 1000 util_xy util_xy 1 1 0 0 0 0 6).
  exact offer_curves_xy_six_run.
Defined.

(** A run of the refinement loop of one slice: [f_a = f_b = x*y],
    [total_x = total_y = 1], [x_base = 0.5], started at [best_y = 0.25]. *)
Lemma offer_refinement_run :
  while_loop (offer_guard 1) (offer_body (mrs_gap util_xy util_xy 1 1 (1 # 2)) 1) 100
    (mk_offer_state (1 # 10) (1 # 4) (mrs_gap util_xy util_xy 1 1 (1 # 2) (1 # 4)))
  = Some (mk_offer_state (1 # 1310720) (1 # 2) (Fin (0 # 16384000000000000000000000000))).
Proof. vm_compute. reflexivity. Qed.

(** X11: the [dy]-refinement of a slice of [calculate_offer_curves] never
    makes the result worse: it ends at its starting [best_y] with the
    starting [best_diff], or at a [best_y] strictly inside
    [(0.01 * total_y, 0.99 * total_y)] with a strictly smaller [best_diff];
    and if [best_diff] is the gap at [best_y] at the start, it still is at
    the end. *)
Theorem offer_refinement_never_worse (gap : Q -> flt) (total_y : Q) (fuel : nat)
    (st st' : offer_state) :
  while_loop (offer_guard total_y) (offer_body gap total_y) fuel st = Some st' ->
  ((best_y st' = best_y st /\ best_diff st' = best_diff st) \/
   (flt_ltb (best_diff st') (best_diff st) = true /\
    (1 # 100) * total_y < best_y st' /\ best_y st' < (99 # 100) * total_y)) /\
  (best_diff st = gap (best_y st) -> best_diff st' = gap (best_y st')).
Proof.
  intro Hrun. exact (offer_loop_moves gap total_y fuel st st' Hrun).
Qed.

Lemma offer_refinement_never_worse_witness :
  ((best_y (mk_offer_state (1 # 1310720) (1 # 2) (Fin (0 # 16384000000000000000000000000)))
    = best_y (mk_offer_state (1 # 10) (1 # 4) (mrs_gap util_xy util_xy 1 1 (1 # 2) (1 # 4))) /\
    best_diff (mk_offer_state (1 # 1310720) (1 # 2) (Fin (0 # 16384000000000000000000000000)))
    = best_diff (mk_offer_state (1 # 10) (1 # 4) (mrs_gap util_xy util_xy 1 1 (1 # 2) (1 # 4)))) \/
   (flt_ltb (best_diff (mk_offer_state (1 # 1310720) (1 # 2) (Fin (0 # 16384000000000000000000000000))))
            (best_diff (mk_offer_state (1 # 10) (1 # 4) (mrs_gap util_xy util_xy 1 1 (1 # 2) (1 # 4))))
    = true /\
    (1 # 100) * 1 < best_y (mk_offer_state (1 # 1310720) (1 # 2) (Fin (0 # 16384000000000000000000000000))) /\
    best_y (mk_offer_state (1 # 1310720) (1 # 2) (Fin (0 # 16384000000000000000000000000)))
    < (99 # 100) * 1)) /\
  (best_diff (mk_offer_state (1 # 10) (1 # 4) (mrs_gap util_xy util_xy 1 1 (1 # 2) (1 # 4)))
   = mrs_gap util_xy util_xy 1 1 (1 # 2)
       (best_y (mk_offer_state (1 # 10) (1 # 4) (mrs_gap util_xy util_xy 1 1 (1 # 2) (1 # 4)))) ->
   best_diff (mk_offer_state (1 # 1310720) (1 # 2) (Fin (0 # 16384000000000000000000000000)))
   = mrs_gap util_xy util_xy 1 1 (1 # 2)
       (best_y (mk_offer_state (1 # 1310720) (1 # 2) (Fin (0 # 16384000000000000000000000000))))).
Proof.
  apply (offer_refinement_never_worse (mrs_gap util_xy util_xy 1 1 (1 # 2)) 1 100).
  exact offer_refinement_run.
Defined.

(** X12: every point [(x, y)] returned by [find_walrasian_equilibrium]
    lies strictly inside the box:
    [0.1 < x < total_x - 0.1] and [0.1 < y < total_y - 0.1]. *)
Theorem walras_points_inside_box (fuel : nat) (qexp : Q -> Q) (fa fb : Q -> Q -> Q)
    (total_x total_y : Q) (num_prices : nat) pts x y :
  find_walrasian_equilibrium fuel qexp fa fb total_x total_y num_prices = Some pts ->
  In (x, y) pts ->
  (1 # 10 < x /\ x < total_x - (1 # 10)) /\ (1 # 10 < y /\ y < total_y - (1 # 10)).
Proof.
  unfold find_walrasian_equilibrium.
  destruct (equilibrium_points fuel qexp fa fb total_x total_y num_prices) as [l|] eqn:E;
    intro H; [|discriminate].
  injection H as <-. intro Hin. apply remove_nearby_incl in Hin.
  unfold equilibrium_points in E.
  destruct (gather_map_Some _ _ _ _ E Hin) as (pr & rs & _ & Hrs & Hp).
  destruct (proj2 (walras_price_shape _ _ _ _ _ _ _ Hrs) _ Hp) as (H1 & H2 & H3 & H4).
  cbn [fst snd] in *. tauto.
Qed.

Lemma walras_points_inside_box_witness :
  (1 # 10 < 102700 # 29000 /\ 102700 # 29000 < 100 - (1 # 10)) /\
  (1 # 10 < 506100 # 4900000 /\ 506100 # 4900000 < (21 # 100) - (1 # 10)).
Proof.
  apply (walras_points_inside_box 1000 qexp_series util_diff util_diff 100 (21 # 100) 3
           _ _ _ walras_diff_run).
  left. reflexivity.
Defined.

(** X13: [find_walrasian_equilibrium] returns at most [3 * num_prices]
    points: each price ratio contributes at most one point per each of
    its three best grid candidates, and the deduplication only drops
    points. *)
Theorem walras_points_count (fuel : nat) (qexp : Q -> Q) (fa fb : Q -> Q -> Q)
    (total_x total_y : Q) (num_prices : nat) pts :
  find_walrasian_equilibrium fuel qexp fa fb total_x total_y num_prices = Some pts ->
  (length pts <= 3 * num_prices)%nat.
Proof.
  unfold find_walrasian_equilibrium.
  destruct (equilibrium_points fuel qexp fa fb total_x total_y num_prices) as [l|] eqn:E;
    intro H; [|discriminate].
  injection H as <-. pose proof (remove_nearby_length l).
  unfold equilibrium_points in E.
  pose proof (gather_map_length _ 3 _ _
                (fun pr rs _ Hs => proj1 (walras_price_shape fuel fa fb total_x total_y pr rs Hs)) E).
  unfold price_ratios in *. rewrite length_map, linspace_length in *. lia.
Qed.

Lemma walras_points_count_witness :
  (length [(102700 # 29000, 506100 # 4900000); (202500 # 29000, 506100 # 4900000);
           (302300 # 29000, 506100 # 4900000)] <= 3 * 3)%nat.
Proof.
  apply (walras_points_count 1000 qexp_series util_diff util_diff 100 (21 # 100) 3).
  exact walras_diff_run.
Defined.

(** A run of the step-halving loop for the price ratio 1 of
    [walras_diff_run], started at [x = 50]. *)
Lemma walras_loop_run :
  while_loop walras_guard
    (walras_body (demand_excess util_diff util_diff 100 (21 # 100) 1) 100) 100 (50, 1 # 10)
  = Some (50, 1 # 10240).
Proof. vm_compute. reflexivity. Qed.

(** X14: the step-halving local search of [find_walrasian_equilibrium]
    never makes [demand_excess] worse: it ends at its starting point or at
    a point with a strictly smaller [demand_excess]; and started strictly
    inside [(0.1, total_x - 0.1)], it ends there. *)
Theorem walras_local_search_never_worse (de : Q -> flt) (total_x : Q) (fuel : nat)
    (x0 s0 x1 s1 : Q) :
  while_loop walras_guard (walras_body de total_x) fuel (x0, s0) = Some (x1, s1) ->
  (x1 = x0 \/ flt_ltb (de x1) (de x0) = true) /\
  (1 # 10 < x0 /\ x0 < total_x - (1 # 10) -> 1 # 10 < x1 /\ x1 < total_x - (1 # 10)).
Proof.
  intro Hrun. exact (walras_loop_moves de total_x fuel x0 s0 x1 s1 Hrun).
Qed.

Lemma walras_local_search_never_worse_witness :
  (50 = 50 \/ flt_ltb (demand_excess util_diff util_diff 100 (21 # 100) 1 50)
                      (demand_excess util_diff util_diff 100 (21 # 100) 1 50) = true) /\
  (1 # 10 < 50 /\ 50 < 100 - (1 # 10) -> 1 # 10 < 50 /\ 50 < 100 - (1 # 10)).
Proof.
  apply (walras_local_search_never_worse (demand_excess util_diff util_diff 100 (21 # 100) 1)
           100 100 50 (1 # 10) 50 (1 # 10240)).
  exact walras_loop_run.
Defined.

(** X15: the deduplication pass of [find_walrasian_equilibrium] leaves a
    list unchanged exactly when its later points are all at distance at
    least 1 from the earlier ones; in particular applying it twice gives
    the same result as applying it once. *)
Theorem remove_nearby_fixpoints (pts : list (Q * Q)) :
  (remove_nearby pts = pts <-> separated pts) /\
  remove_nearby (remove_nearby pts) = remove_nearby pts.
Proof.
  split.
  - split; intro H.
    + rewrite <- H. apply remove_nearby_separated.
    + exact (remove_nearby_separated_id pts H).
  - exact (remove_nearby_separated_id _ (remove_nearby_separated pts)).
Qed.

(** X18: the sort of the grid candidates of [find_walrasian_equilibrium]
    ([x_candidates.sort(key=lambda x: x[1])]) returns a permutation of its
    input in which no element has a key strictly smaller than an earlier
    one; so the three candidates that are tried have the smallest keys. *)
Theorem sort_by_sorted_permutation {A : Type} (key : A -> flt) (l : list A) :
  Permutation l (sort_by key l) /\
  StronglySorted (fun x y => flt_ltb (key y) (key x) = false) (sort_by key l).
Proof.
  unfold sort_by.
  assert (H : forall l acc,
             StronglySorted (fun x y => flt_ltb (key y) (key x) = false) acc ->
             Permutation (rev l ++ acc) (fold_left (fun acc a => insert_by key a acc) l acc) /\
             StronglySorted (fun x y => flt_ltb (key y) (key x) = false)
                            (fold_left (fun acc a => insert_by key a acc) l acc)).
  { induction l0 as [|a l0 IH]; intros acc Hs; simpl; [split; [reflexivity|exact Hs]|].
    destruct (IH (insert_by key a acc) (insert_by_sorted key a acc Hs)) as [Hp Hs'].
    split; [|exact Hs'].
    rewrite <- app_assoc. simpl.
    transitivity (rev l0 ++ insert_by key a acc); [|exact Hp].
    apply Permutation_app_head. apply insert_by_perm. }
  destruct (H l [] (SSorted_nil _)) as [Hp Hs]. split; [|exact Hs].
  rewrite app_nil_r in Hp. transitivity (rev l); [apply Permutation_rev|exact Hp].
Qed.
